(** * CTC training graphs (snowfall/training/ctc_graph.py)

    A shallow embedding of [build_ctc_topo], [build_ctc_topo2] and
    [CtcTrainingGraphCompiler], together with the properties that the
    design document states about them.

    Python exceptions are results of an error monad, Python objects that are
    passed by reference (k2.Fsa, the compiler instance) live in an explicit
    store, and the k2 finite-state toolkit, which is an external library, is an
    interface ([K2]) whose few laws ([K2Laws]) are the ones the design document
    lists for the consumed primitives. *)

From stdpp Require Import base numbers list sorting gmap strings.
From Stdlib Require Import Ascii.

Local Open Scope Z_scope.

(** ** Exceptions and the error monad *)

Inductive exn : Set :=
  | AssertionError
  | IndexError
  | KeyError
  | ValueError
  | TypeError.

Inductive result (A : Type) : Type :=
  | Ok (a : A)
  | Raise (e : exn).
Arguments Ok {A} a.
Arguments Raise {A} e.

Global Instance result_ret : MRet result := @Ok.
Global Instance result_bind : MBind result := λ A B f m,
  match m with Ok a => f a | Raise e => Raise e end.

(** [assert cond] *)
Definition assert (b : bool) : result unit :=
  if b then Ok () else Raise AssertionError.

(** [l[i]] for a non-negative index. *)
Definition get {A} (l : list A) (i : nat) : result A :=
  match l !! i with Some x => Ok x | None => Raise IndexError end.

(** [for x in xs: s = body(x, s)] *)
Fixpoint for_ {A S} (xs : list A) (body : A → S → result S) (s : S) : result S :=
  match xs with
  | [] => Ok s
  | x :: xs' => s' ← body x s; for_ xs' body s'
  end.

(** [[f(x) for x in xs]], stopping at the first exception. *)
Fixpoint comprehension {A B} (f : A → result B) (xs : list A) : result (list B) :=
  match xs with
  | [] => Ok []
  | x :: xs' => y ← f x; ys ← comprehension f xs'; Ok (y :: ys)
  end.

(** [enumerate(l)] *)
Definition enumerate {A} (l : list A) : list (nat * A) :=
  zip (seq 0 (length l)) l.

(** [l.remove(x)]: deletes the first occurrence, [ValueError] if there is none. *)
Fixpoint list_remove (x : Z) (l : list Z) : result (list Z) :=
  match l with
  | [] => Raise ValueError
  | y :: l' =>
      if decide (y = x) then Ok l'
      else l'' ← list_remove x l'; Ok (y :: l'')
  end.

(** Python's [sorted] is stable.  [insert_sorted] puts an element in front of
    the first element that is not smaller, so that folding it from the right
    keeps equal elements in their original order. *)
Fixpoint insert_sorted {A} (le : A → A → bool) (x : A) (l : list A) : list A :=
  match l with
  | [] => [x]
  | y :: l' => if le x y then x :: y :: l' else y :: insert_sorted le x l'
  end.

Definition stable_sort {A} (le : A → A → bool) (l : list A) : list A :=
  foldr (insert_sorted le) [] l.

Fixpoint is_sorted {A} (le : A → A → bool) (l : list A) : bool :=
  match l with
  | x :: (y :: _) as l' => le x y && is_sorted le l'
  | _ => true
  end.

Definition key_le {A} (x y : Z * A) : bool := x.1 <=? y.1.

(** [sorted(rows, key=lambda arc: arc[0])]: the keys are computed first (an
    empty row raises [IndexError]), then the rows are sorted on them. *)
Definition sorted_by_first (rows : list (list Z)) : result (list (list Z)) :=
  keys ← comprehension (λ arc, get arc 0%nat) rows;
  Ok ((stable_sort key_le (zip keys rows)).*2).

(** ** Acceptors *)

(** An arc with one auxiliary label.  Scores are floating point numbers in k2;
    every arc that this file constructs has score 0.0, written [0]. *)
Record Arc : Set := mkArc {
  src_state : Z;
  dest_state : Z;
  label : Z;
  aux_label : Z;
  score : Z
}.

Global Instance Arc_eq_dec : EqDecision Arc.
Proof. solve_decision. Defined.

Record Fsa : Set := mkFsa {
  num_states : Z;
  arcs : list Arc
}.

Global Instance Fsa_eq_dec : EqDecision Fsa.
Proof. solve_decision. Defined.

(** *** The textual form

    The text handed to [k2.Fsa.from_str] is represented by its lines, and a
    line by its whitespace-separated numeric fields:
    [src dest label aux_label score] for an arc, and the lone final state on
    the last line.  [from_str] is the reader for one auxiliary label
    ([num_aux_labels=1], or [acceptor=False]); it requires the first column
    to be non-decreasing. *)

Definition parse_arc (row : list Z) : result Arc :=
  match row with
  | [s; d; l; a; w] => Ok (mkArc s d l a w)
  | _ => Raise ValueError
  end.

Definition from_str (rows : list (list Z)) : result Fsa :=
  match last rows with
  | Some [final] =>
      arcs ← comprehension parse_arc (removelast rows);
      if is_sorted Z.leb (src_state <$> arcs)
      then Ok (mkFsa (final + 1) arcs)
      else Raise ValueError
  | _ => Raise ValueError
  end.

(** ** The k2 toolkit, as consumed

    Operations on one acceptor.  [properties] is the bit field of [k2.Fsa],
    [ARC_SORTED] the mask [k2.fsa_properties.ARC_SORTED], and [connected]
    the toolkit's own test (accessible and coaccessible) under which
    [k2.connect] hands back its argument. *)
Class K2 : Type := {
  ARC_SORTED : Z;
  properties : Fsa → Z;
  connected : Fsa → bool;
  arc_sort : Fsa → Fsa;
  linear_fsa : list Z → Fsa;
  intersect : Fsa → Fsa → Fsa;
  connect : Fsa → Fsa;
  invert : Fsa → Fsa;
  compose : Fsa → Fsa → Fsa
}.

(** [fsa.properties & k2.fsa_properties.ARC_SORTED != 0]; in Python [&] binds
    tighter than [!=]. *)
Definition is_arc_sorted `{K2} (f : Fsa) : bool :=
  bool_decide (Z.land (properties f) ARC_SORTED ≠ 0).

(** The laws of [arc_sort]: a reordering of the arcs, after which the
    acceptor has the [ARC_SORTED] property, and which gives back an acceptor
    that already has it.  Likewise [connect] gives back an acceptor that is
    connected already. *)
Class K2Laws `{K2} : Prop := {
  arc_sort_perm f : arcs (arc_sort f) ≡ₚ arcs f;
  arc_sort_num_states f : num_states (arc_sort f) = num_states f;
  arc_sort_sorted f : is_arc_sorted (arc_sort f) = true;
  arc_sort_noop f : is_arc_sorted f = true → arc_sort f = f;
  connect_noop f : connected f = true → connect f = f
}.

(** ** Topologies *)

Section topologies.
Context `{K2}.

(** The text that [build_ctc_topo] writes: for every state [i], one line
    per state [j] and the line of the arc to the final state; then the
    final state. *)
Definition build_ctc_topo_rows (tokens : list Z) : result (list (list Z)) :=
  assert (bool_decide (0 ∈ tokens));;
  let num_states := length tokens in
  let final_state := Z.of_nat num_states in
  arcs ← for_ (seq 0 num_states) (λ i arcs,
    arcs ← for_ (seq 0 num_states) (λ j arcs,
      if decide (i = j) then
        ti ← get tokens i;
        Ok (arcs ++ [[Z.of_nat i; Z.of_nat i; ti; 0; 0]])
      else
        tj ← get tokens j;
        Ok (arcs ++ [[Z.of_nat i; Z.of_nat j; tj; tj; 0]])) arcs;
    Ok (arcs ++ [[Z.of_nat i; final_state; -1; -1; 0]])) [];
  Ok (arcs ++ [[final_state]]).

Definition build_ctc_topo (tokens : list Z) : result Fsa :=
  arcs ← build_ctc_topo_rows tokens;
  ans ← from_str arcs;
  Ok (arc_sort ans).

(** The lines that [build_ctc_topo2] writes.  [phones.copy()] protects the
    caller's list, which is a value here; [phones.remove(0)] deletes the
    first 0. *)
Definition build_ctc_topo2_rows (phones : list Z) : result (list (list Z)) :=
  assert (bool_decide (0 ∈ phones));;
  phones ← list_remove 0 phones;
  let num_phones := Z.of_nat (length phones) in
  let start := 0 in
  let final := num_phones + 1 in
  let arcs := [[start; start; 0; 0; 0]; [start; final; -1; -1; 0]; [final]] in
  arcs ← for_ (enumerate phones) (λ '(i, p) arcs,
    let i := Z.of_nat i + 1 in
    Ok (arcs ++ [[start; start; p; p; 0]]
             ++ [[start; i; p; p; 0]]
             ++ [[i; i; p; 0; 0]]
             ++ [[i; start; p; 0; 0]])) arcs;
  sorted_by_first arcs.

Definition build_ctc_topo2 (phones : list Z) : result Fsa :=
  arcs ← build_ctc_topo2_rows phones;
  ctc_topo ← from_str arcs;
  Ok (arc_sort ctc_topo).

End topologies.

(** ** Symbol tables and transcripts *)

(** [k2.SymbolTable]: two dictionaries, one per direction. *)
Record SymbolTable : Type := mkSymbolTable {
  sym2id : gmap string Z;
  id2sym : gmap Z string
}.

(** [sym in table], for a string. *)
Definition contains (table : SymbolTable) (sym : string) : bool :=
  bool_decide (is_Some (sym2id table !! sym)).

(** [table[sym]], for a string. *)
Definition getitem (table : SymbolTable) (sym : string) : result Z :=
  match sym2id table !! sym with
  | Some i => Ok i
  | None => Raise KeyError
  end.

(** [text.split(' ')]: cuts at every single space, so that the result has
    one piece more than [text] has spaces. *)
Fixpoint split (text : string) : list string :=
  match text with
  | EmptyString => [EmptyString]
  | String c rest =>
      if Ascii.eqb c " "%char then EmptyString :: split rest
      else
        match split rest with
        | w :: ws => String c w :: ws
        | [] => [String c EmptyString]
        end
  end.

(** ** The store *)

Definition loc := positive.

(** A [k2.Fsa] object holds one acceptor or a vector of them (FsaVec). *)
Inductive FsaVal : Set :=
  | One (f : Fsa)
  | Vec (fs : list Fsa).

Record Compiler : Type := mkCompiler {
  L_inv : loc;
  phones : SymbolTable;
  words : SymbolTable;
  oov : string;
  ctc_topo : loc
}.

Inductive Obj : Type :=
  | FsaObj (v : FsaVal) (requires_grad : bool)
  | CompilerObj (c : Compiler).

Abbreviation store := (gmap loc Obj).

(** State and exceptions: a computation returns its result or the exception
    it raised, and the store it leaves behind in both cases. *)
Definition M (A : Type) : Type := store → result A * store.

Global Instance M_ret : MRet M := λ A a h, (Ok a, h).
Global Instance M_bind : MBind M := λ A B f m h,
  match m h with
  | (Ok a, h') => f a h'
  | (Raise e, h') => (Raise e, h')
  end.

Definition lift {A} (r : result A) : M A := λ h, (r, h).

Definition alloc (o : Obj) : M loc := λ h,
  let l := fresh (dom h) in (Ok l, <[l:=o]> h).

Definition deref_fsa (l : loc) : M (FsaVal * bool) := λ h,
  match h !! l with
  | Some (FsaObj v g) => (Ok (v, g), h)
  | _ => (Raise TypeError, h)
  end.

Definition deref_compiler (l : loc) : M Compiler := λ h,
  match h !! l with
  | Some (CompilerObj c) => (Ok c, h)
  | _ => (Raise TypeError, h)
  end.

Definition update (l : loc) (o : Obj) : M unit := λ h, (Ok (), <[l:=o]> h).

(** Lifting the operations on one acceptor to [k2.Fsa] objects.  On a vector
    they work acceptor by acceptor, a single acceptor being paired with every
    element of a vector. *)
Definition val_map (g : Fsa → Fsa) (v : FsaVal) : FsaVal :=
  match v with
  | One f => One (g f)
  | Vec fs => Vec (g <$> fs)
  end.

Definition val_map2 (g : Fsa → Fsa → Fsa) (a b : FsaVal) : FsaVal :=
  match a, b with
  | One x, One y => One (g x y)
  | Vec xs, One y => Vec ((λ x, g x y) <$> xs)
  | One x, Vec ys => Vec (g x <$> ys)
  | Vec xs, Vec ys => Vec (zip_with g xs ys)
  end.

Definition val_all (p : Fsa → bool) (v : FsaVal) : bool :=
  match v with
  | One f => p f
  | Vec fs => forallb p fs
  end.

Section k2_objects.
Context `{K2}.

(** [k2.arc_sort(fsa)]: the argument itself when it is arc-sorted already,
    a new object otherwise. *)
Definition k2_arc_sort (fsa : loc) : M loc :=
  '(v, g) ← deref_fsa fsa;
  if val_all is_arc_sorted v then mret fsa
  else alloc (FsaObj (val_map arc_sort v) g).

(** [k2.connect(fsa)]: the argument itself when it is connected already. *)
Definition k2_connect (fsa : loc) : M loc :=
  '(v, g) ← deref_fsa fsa;
  if val_all connected v then mret fsa
  else alloc (FsaObj (val_map connect v) g).

(** [k2.linear_fsa(labels)] for a list of lists: a new FsaVec. *)
Definition k2_linear_fsa (labels : list (list Z)) : M loc :=
  alloc (FsaObj (Vec (linear_fsa <$> labels)) false).

(** [k2.intersect(a_fsa, b_fsa)]: a new object. *)
Definition k2_intersect (a_fsa b_fsa : loc) : M loc :=
  '(va, ga) ← deref_fsa a_fsa;
  '(vb, gb) ← deref_fsa b_fsa;
  alloc (FsaObj (val_map2 intersect va vb) (ga || gb)).

(** [k2.compose(a_fsa, b_fsa)]: a new object. *)
Definition k2_compose (a_fsa b_fsa : loc) : M loc :=
  '(va, ga) ← deref_fsa a_fsa;
  '(vb, gb) ← deref_fsa b_fsa;
  alloc (FsaObj (val_map2 compose va vb) (ga || gb)).

(** [fsa.invert_()]: in place; returns the object. *)
Definition invert_ (fsa : loc) : M loc :=
  '(v, g) ← deref_fsa fsa;
  update fsa (FsaObj (val_map invert v) g);;
  mret fsa.

(** [fsa.requires_grad_(b)]: in place; returns the object. *)
Definition requires_grad_ (fsa : loc) (b : bool) : M loc :=
  '(v, _) ← deref_fsa fsa;
  update fsa (FsaObj v b);;
  mret fsa.

(** A function that builds an acceptor from scratch returns a new object. *)
Definition new_fsa (r : result Fsa) : M loc :=
  f ← lift r;
  alloc (FsaObj (One f) false).

End k2_objects.

(** ** CtcTrainingGraphCompiler *)

Section compiler.
Context `{K2}.

(** [snowfall.common.get_phone_symbols]: the ids of a phone table. *)
Context (get_phone_symbols : SymbolTable → list Z).

(** [CtcTrainingGraphCompiler(L_inv, phones, words, topo, oov)].  The
    instance is put in the store when [__init__] returns: if [__init__]
    raises, the caller gets no instance. *)
Definition __init__ (L_inv : loc) (phones words : SymbolTable)
    (topo oov : string) : M loc :=
  '(v, _) ← deref_fsa L_inv;
  L_inv ← (if val_all is_arc_sorted v then k2_arc_sort L_inv else mret L_inv);
  lift (assert (contains words oov));;
  let phone_ids := get_phone_symbols phones in
  let phone_ids_with_blank := 0 :: phone_ids in
  ctc_topo ←
    (if decide (topo = "normal"%string) then
       t ← new_fsa (build_ctc_topo phone_ids_with_blank); k2_arc_sort t
     else
       t ← new_fsa (build_ctc_topo2 phone_ids_with_blank); k2_arc_sort t);
  alloc (CompilerObj (mkCompiler L_inv phones words oov ctc_topo)).

(** The first loop of [compile]: transcripts to lists of word ids.  The
    generator [tokens] is consumed by the comprehension that follows it. *)
Definition compile_word_ids (self : Compiler) (texts : list string)
    : result (list (list Z)) :=
  for_ texts (λ text word_ids,
    let tokens :=
      (λ token, if contains (words self) token then token else oov self)
        <$> split text in
    word_id ← comprehension (getitem (words self)) tokens;
    Ok (word_ids ++ [word_id])) [].

(** [compile(self, texts)].  The attributes of [self] are read where the
    source reads them. *)
Definition compile (self : loc) (texts : list string) : M loc :=
  c ← deref_compiler self;
  word_ids ← lift (compile_word_ids c texts);
  label_graph ← k2_linear_fsa word_ids;
  c ← deref_compiler self;
  decoding_graph ← k2_intersect label_graph (L_inv c);
  decoding_graph ← k2_connect decoding_graph;
  decoding_graph ← invert_ decoding_graph;
  decoding_graph ← k2_arc_sort decoding_graph;
  c ← deref_compiler self;
  decoding_graph ← k2_compose (ctc_topo c) decoding_graph;
  decoding_graph ← k2_connect decoding_graph;
  requires_grad_ decoding_graph false;;
  mret decoding_graph.

End compiler.

(** ** A reference toolkit

    The theorems below hold for every toolkit ([K2]) that satisfies the laws
    ([K2Laws]).  This module gives one, with textbook constructions, to show
    that the laws can be met and to run the embedded code on examples.  Arcs
    are ordered by source state and then by label; the product construction
    lets either side move alone on label 0; [connect] keeps the arcs that lie
    on a path from state 0 to the last state, without renumbering states. *)
Module Reference.

Definition arc_le (a b : Arc) : bool :=
  bool_decide (src_state a < src_state b
               ∨ (src_state a = src_state b ∧ label a ≤ label b)).

Definition properties (f : Fsa) : Z :=
  if is_sorted arc_le (arcs f) then 16 else 0.

Definition arc_sort (f : Fsa) : Fsa :=
  mkFsa (num_states f) (stable_sort arc_le (arcs f)).

Definition linear_fsa (labels : list Z) : Fsa :=
  let n := Z.of_nat (length labels) in
  mkFsa (n + 2)
    (imap (λ i l, mkArc (Z.of_nat i) (Z.of_nat i + 1) l l 0) labels
     ++ [mkArc n (n + 1) (-1) (-1) 0]).

Definition invert (f : Fsa) : Fsa :=
  mkFsa (num_states f)
    ((λ a, mkArc (src_state a) (dest_state a) (aux_label a) (label a) (score a))
       <$> arcs f).

Definition states (f : Fsa) : list Z :=
  Z.of_nat <$> seq 0 (Z.to_nat (num_states f)).

(** The product of [a] and [b], matching [out a] with the label of [b]. *)
Definition product (out : Arc → Z) (a b : Fsa) : Fsa :=
  let nb := num_states b in
  let pair sa sb := sa * nb + sb in
  mkFsa (num_states a * nb)
    ((x ← arcs a; y ← arcs b;
      if decide (out x = label y ∧ out x ≠ 0)
      then [mkArc (pair (src_state x) (src_state y))
                  (pair (dest_state x) (dest_state y))
                  (label x) (aux_label y) (score x + score y)]
      else [])
     ++ (y ← arcs b; sa ← states a;
         if decide (label y = 0)
         then [mkArc (pair sa (src_state y)) (pair sa (dest_state y))
                     0 (aux_label y) (score y)]
         else [])
     ++ (x ← arcs a; sb ← states b;
         if decide (out x = 0)
         then [mkArc (pair (src_state x) sb) (pair (dest_state x) sb)
                     (label x) 0 (score x)]
         else [])).

Definition intersect : Fsa → Fsa → Fsa := product label.
Definition compose : Fsa → Fsa → Fsa := product aux_label.

Definition accessible (f : Fsa) : list Z :=
  Nat.iter (Z.to_nat (num_states f))
    (λ S, list_union S
            (dest_state <$> filter (λ a, src_state a ∈ S) (arcs f)))
    [0].

Definition coaccessible (f : Fsa) : list Z :=
  Nat.iter (Z.to_nat (num_states f))
    (λ S, list_union S
            (src_state <$> filter (λ a, dest_state a ∈ S) (arcs f)))
    [num_states f - 1].

Definition connect (f : Fsa) : Fsa :=
  mkFsa (num_states f)
    (filter (λ a, src_state a ∈ accessible f ∧ dest_state a ∈ coaccessible f)
       (arcs f)).

Definition connected (f : Fsa) : bool := bool_decide (connect f = f).

Definition toolkit : K2 :=
  Build_K2 16 properties connected arc_sort linear_fsa intersect connect
    invert compose.

End Reference.

(** ** The arcs that the design document lists

    These definitions follow the document's enumeration of the arcs of the two
    topologies; the theorems compare them with what the builders return. *)

(** Quadratic topology: one self-loop per token, one arc for every ordered
    pair of distinct states, one arc from every token state to the final
    state. *)
Definition topo_self_loops (tokens : list Z) : list Arc :=
  (λ i : nat, mkArc (Z.of_nat i) (Z.of_nat i) (tokens !!! i) 0 0)
    <$> seq 0 (length tokens).

Definition topo_cross_arcs (tokens : list Z) : list Arc :=
  i ← seq 0 (length tokens);
  j ← seq 0 (length tokens);
  if decide (i ≠ j)
  then [mkArc (Z.of_nat i) (Z.of_nat j) (tokens !!! j) (tokens !!! j) 0]
  else [].

Definition topo_final_arcs (tokens : list Z) : list Arc :=
  (λ i : nat, mkArc (Z.of_nat i) (Z.of_nat (length tokens)) (-1) (-1) 0)
    <$> seq 0 (length tokens).

(** Linear topology: the four arcs of the phone at position [i] (from 0),
    whose dedicated state is [i + 1], and the whole arc set for the phones
    that remain once 0 is removed. *)
Definition topo2_phone_arcs (ip : nat * Z) : list Arc :=
  let s := Z.of_nat ip.1 + 1 in
  let p := ip.2 in
  [mkArc 0 0 p p 0; mkArc 0 s p p 0; mkArc s s p 0 0; mkArc s 0 p 0 0].

Definition topo2_arcs (phones : list Z) : list Arc :=
  [mkArc 0 0 0 0 0; mkArc 0 (Z.of_nat (length phones) + 1) (-1) (-1) 0]
  ++ (enumerate phones ≫= topo2_phone_arcs).

(** The arc that a well-formed line denotes. *)
Definition row_arc (row : list Z) : Arc :=
  match row with
  | [s; d; l; a; w] => mkArc s d l a w
  | _ => mkArc 0 0 0 0 0
  end.

(** The lines that [build_ctc_topo] writes for state [i], in the order in
    which it writes them. *)
Definition topo_cell (tokens : list Z) (i j : nat) : list Z :=
  if decide (i = j)
  then [Z.of_nat i; Z.of_nat i; tokens !!! i; 0; 0]
  else [Z.of_nat i; Z.of_nat j; tokens !!! j; tokens !!! j; 0].

Definition topo_state_rows (tokens : list Z) (i : nat) : list (list Z) :=
  (topo_cell tokens i <$> seq 0 (length tokens))
  ++ [[Z.of_nat i; Z.of_nat (length tokens); -1; -1; 0]].


Definition topo_cross_from (tokens : list Z) (i : nat) : list Arc :=
  j ← seq 0 (length tokens);
  if decide (i ≠ j)
  then [mkArc (Z.of_nat i) (Z.of_nat j) (tokens !!! j) (tokens !!! j) 0]
  else [].

(** The lines that [build_ctc_topo2] appends for one phone, and its whole
    list of lines before it is sorted. *)
Definition topo2_phone_rows (ip : nat * Z) : list (list Z) :=
  let i := Z.of_nat ip.1 + 1 in
  let p := ip.2 in
  [[0; 0; p; p; 0]; [0; i; p; p; 0]; [i; i; p; 0; 0]; [i; 0; p; 0; 0]].

Definition topo2_arc_rows (phones : list Z) : list (list Z) :=
  [[0; 0; 0; 0; 0]; [0; Z.of_nat (length phones) + 1; -1; -1; 0]]
  ++ (enumerate phones ≫= topo2_phone_rows).

Definition first_field (row : list Z) : Z := default 0 (head row).

(** ** Exits of a topology *)

Definition final_state (f : Fsa) : Z := num_states f - 1.

(** Label -1 is used only on arcs that end in the final state. *)
Definition minus_one_only_into_final (f : Fsa) : Prop :=
  ∀ a, a ∈ arcs f → label a = -1 → dest_state a = final_state f.

(** The arcs labeled -1 that leave state [s]. *)
Definition exits (f : Fsa) (s : Z) : list Arc :=
  filter (λ a, src_state a = s ∧ label a = -1) (arcs f).

(** Paths. *)
Inductive reaches (f : Fsa) : Z → Z → Prop :=
  | reaches_refl s : reaches f s s
  | reaches_step a t :
      a ∈ arcs f → reaches f (dest_state a) t → reaches f (src_state a) t.

(** Every state other than the final one has exactly one arc labeled -1
    leaving it. *)
Definition one_exit_per_state (f : Fsa) : Prop :=
  ∀ s, 0 ≤ s < final_state f → length (exits f s) = 1%nat.

(** ** The pipeline of [compile], as the design document words it *)

(** Step 1: split the transcript into words and map every word to its id, a
    word that is not in the table to the id of the OOV symbol. *)
Definition transcript_ids (table : SymbolTable) (oov_id : Z) (text : string)
    : list Z :=
  (λ word, default oov_id (sym2id table !! word)) <$> split text.

(** Steps 2 to 8, for one transcript. *)
Definition utterance_graph `{K2} (lexicon topology : Fsa) (ids : list Z) : Fsa :=
  let linear := linear_fsa ids in
  let intersected := intersect linear lexicon in
  let trimmed := connect intersected in
  let inverted := invert trimmed in
  let sorted := arc_sort inverted in
  let composed := compose topology sorted in
  connect composed.

(** ** Reasoning about the store

    [wp m Φ Ψ h]: run from [h], [m] returns a value and a store that satisfy
    [Φ], or raises an exception and leaves a store that satisfy [Ψ]. *)
Definition wp {A} (m : M A) (Φ : A → store → Prop) (Ψ : exn → store → Prop)
    (h : store) : Prop :=
  match m h with
  | (Ok a, h') => Φ a h'
  | (Raise e, h') => Ψ e h'
  end.

(** [l] is not an object of [h0]. *)
Definition owned (h0 : store) (l : loc) : Prop := h0 !! l = None.

(** [m] leaves the objects of [h0] as they are, whether it returns or raises,
    and what it returns satisfies [Q]. *)
Definition framed (h0 : store) {A} (m : M A) (Q : A → Prop) : Prop :=
  ∀ h, h0 ⊆ h → wp m (λ a h', h0 ⊆ h' ∧ Q a) (λ _ h', h0 ⊆ h') h.

(** [l] is an object made after [h0], and holds [v] with flag [g] in [h]. *)
Definition holds (h0 : store) (v : FsaVal) (g : bool) (l : loc) (h : store)
    : Prop :=
  h0 ⊆ h ∧ owned h0 l ∧ h !! l = Some (FsaObj v g).

Definition never : exn → store → Prop := λ _ _, False.

(** ** A small instance

    A word table with [<UNK>], [a] and [c], a lexicon of three words whose
    arcs are not in label order, and a store that holds the lexicon, a
    topology and a compiler. *)
Module Sample.

Definition words : SymbolTable :=
  mkSymbolTable
    (<["<UNK>"%string := 1]> (<["a"%string := 2]> (<["c"%string := 3]> ∅)))
    (<[1 := "<UNK>"%string]> (<[2 := "a"%string]> (<[3 := "c"%string]> ∅))).

Definition phones : SymbolTable :=
  mkSymbolTable
    (<["<eps>"%string := 0]> (<["p"%string := 1]> (<["q"%string := 2]> ∅)))
    (<[0 := "<eps>"%string]> (<[1 := "p"%string]> (<[2 := "q"%string]> ∅))).

Definition get_phone_symbols (_ : SymbolTable) : list Z := [1; 2].

Definition lexicon : Fsa :=
  mkFsa 2 [mkArc 0 0 3 2 0; mkArc 0 0 2 1 0; mkArc 0 0 1 1 0;
           mkArc 0 1 (-1) (-1) 0].

Definition sorted_lexicon : Fsa := Reference.arc_sort lexicon.

Definition topology : Fsa :=
  match @build_ctc_topo2 Reference.toolkit [0; 1; 2] with
  | Ok f => f
  | Raise _ => mkFsa 0 []
  end.

Definition compiler : Compiler :=
  mkCompiler 1%positive phones words "<UNK>" 2%positive.

Definition h : store :=
  <[1%positive := FsaObj (One sorted_lexicon) false]>
    (<[2%positive := FsaObj (One topology) false]>
       (<[3%positive := CompilerObj compiler]> ∅)).

(** A store that holds nothing but the unsorted lexicon. *)
Definition h_unsorted : store :=
  <[1%positive := FsaObj (One lexicon) false]> ∅.

End Sample.

(** [w2] stands where [w1] stood: the same word, or the OOV symbol for a
    word that is not in the table. *)
Definition oov_variant (table : SymbolTable) (oov : string) (w1 w2 : string)
    : Prop :=
  w1 = w2 ∨ (contains table w1 = false ∧ w2 = oov).

(** From state [s] the final state is reached along a path whose last arc is
    labeled -1. *)
Definition exit_reachable (f : Fsa) (s : Z) : Prop :=
  ∃ a, a ∈ arcs f ∧ label a = -1 ∧ dest_state a = final_state f
       ∧ reaches f s (src_state a).

(** Paths with their arcs, and the number of arcs labeled -1 on a path. *)
Inductive path (f : Fsa) : Z → Z → list Arc → Prop :=
  | path_nil s : path f s s []
  | path_cons a t p :
      a ∈ arcs f → path f (dest_state a) t p → path f (src_state a) t (a :: p).

Definition minus_one_count (p : list Arc) : nat :=
  length (filter (λ a, label a = -1) p).

(** Every path from another state to the final state has exactly one arc
    labeled -1. *)
Definition one_minus_one_per_path (f : Fsa) : Prop :=
  ∀ s p, s ≠ final_state f → path f s (final_state f) p →
         minus_one_count p = 1%nat.

(** An arc does not leave [final], and is labeled -1 exactly when it enters
    [final]. *)
Definition well_labeled (final : Z) (a : Arc) : Prop :=
  src_state a ≠ final ∧ (label a = -1 ↔ dest_state a = final).

(** ** Further descriptions used by the properties beyond the claims *)

(** The lines of [build_ctc_topo2] as they stand after [sorted]: the two
    lines of the start state, then for every phone its two lines that leave
    the start state, then for every phone the two lines that leave its own
    state, then the final state. *)
Definition topo2_start_rows (ip : nat * Z) : list (list Z) :=
  let i := Z.of_nat ip.1 + 1 in
  let p := ip.2 in
  [[0; 0; p; p; 0]; [0; i; p; p; 0]].

Definition topo2_state_rows (ip : nat * Z) : list (list Z) :=
  let i := Z.of_nat ip.1 + 1 in
  let p := ip.2 in
  [[i; i; p; 0; 0]; [i; 0; p; 0; 0]].

Definition topo2_sorted_rows (phones : list Z) : list (list Z) :=
  [[0; 0; 0; 0; 0]; [0; Z.of_nat (length phones) + 1; -1; -1; 0]]
  ++ (enumerate phones ≫= topo2_start_rows)
  ++ (enumerate phones ≫= topo2_state_rows)
  ++ [[Z.of_nat (length phones) + 1]].

(** [enumerate], counting from [k]. *)
Definition enumerate_from {A} (k : nat) (l : list A) : list (nat * A) :=
  zip (seq k (length l)) l.

Definition keyed (row : list Z) : Z * list Z := (first_field row, row).

(** The arcs that leave state [s], and those among them that read [t]. *)
Definition arcs_from (f : Fsa) (s : Z) : list Arc :=
  filter (λ a, src_state a = s) (arcs f).

Definition arcs_reading (f : Fsa) (s t : Z) : list Arc :=
  filter (λ a, src_state a = s ∧ label a = t) (arcs f).

(** The number of spaces of a transcript. *)
Fixpoint count_spaces (text : string) : nat :=
  match text with
  | EmptyString => 0%nat
  | String c rest =>
      if Ascii.eqb c " "%char then S (count_spaces rest) else count_spaces rest
  end.

(** The arcs of one phone in the linear topology: the two that leave the
    start state and the two that leave the state of the phone. *)
Definition topo2_start_arcs (ip : nat * Z) : list Arc :=
  let s := Z.of_nat ip.1 + 1 in
  let p := ip.2 in
  [mkArc 0 0 p p 0; mkArc 0 s p p 0].

Definition topo2_state_arcs (ip : nat * Z) : list Arc :=
  let s := Z.of_nat ip.1 + 1 in
  let p := ip.2 in
  [mkArc s s p 0 0; mkArc s 0 p 0 0].

(** The number of times [t] occurs in [tokens]. *)
Definition occurrences (t : Z) (tokens : list Z) : nat :=
  length (filter (λ x, x = t) tokens).

(** * Properties *)

(** ** Loops and comprehensions *)

Lemma bind_Ok {A B} (f : A → result B) (a : A) : Ok a ≫= f = f a.
Proof. done. Qed.

Lemma for_append {A B} (g : A → list B) (xs : list A)
    (body : A → list B → result (list B)) (s : list B) :
  (∀ x s', x ∈ xs → body x s' = Ok (s' ++ g x)) →
  for_ xs body s = Ok (s ++ (xs ≫= g)).
Proof.
  revert s. induction xs as [|x xs IH]; intros s Hbody; csimpl.
  - by rewrite app_nil_r.
  - rewrite Hbody by left. csimpl.
    rewrite IH by (intros; apply Hbody; by right).
    by rewrite app_assoc.
Qed.

Lemma comprehension_fmap {A B} (f : A → result B) (g : A → B) (xs : list A) :
  (∀ x, x ∈ xs → f x = Ok (g x)) →
  comprehension f xs = Ok (g <$> xs).
Proof.
  induction xs as [|x xs IH]; intros Hf; simpl; [done|].
  rewrite Hf by left. simpl.
  rewrite IH by (intros; apply Hf; by right). done.
Qed.

Lemma comprehension_Forall2 {A B} (f : A → result B) (xs : list A) (ys : list B) :
  comprehension f xs = Ok ys ↔ Forall2 (λ x y, f x = Ok y) xs ys.
Proof.
  revert ys. induction xs as [|x xs IH]; intros ys; simpl.
  - split; [intros [= <-]; constructor | by inversion 1].
  - destruct (f x) as [y|e] eqn:Hx; simpl.
    + destruct (comprehension f xs) as [ys'|e] eqn:Hxs; simpl.
      * split.
        -- intros [= <-]. constructor; [done | by apply IH].
        -- inversion 1 as [|? y' ? ys'' Hy Hys]; subst.
           apply IH in Hys. congruence.
      * split; [done|].
        inversion 1 as [|? y' ? ys'' Hy Hys]; subst.
        apply IH in Hys. congruence.
    + split; [done|]. inversion 1; congruence.
Qed.

Lemma bind_singleton_fmap {A B} (f : A → B) (xs : list A) :
  xs ≫= (λ x, [f x]) = f <$> xs.
Proof. induction xs as [|x xs IH]; csimpl; [done | by rewrite IH]. Qed.

Lemma bind_ext_in {A B} (f g : A → list B) (xs : list A) :
  (∀ x, x ∈ xs → f x = g x) → xs ≫= f = xs ≫= g.
Proof.
  induction xs as [|x xs IH]; intros Hfg; csimpl; [done|].
  rewrite Hfg by left. rewrite IH; [done|]. intros; apply Hfg; by right.
Qed.

Lemma bind_perm_in {A B} (f g : A → list B) (xs : list A) :
  (∀ x, x ∈ xs → f x ≡ₚ g x) → xs ≫= f ≡ₚ xs ≫= g.
Proof.
  induction xs as [|x xs IH]; intros Hfg; csimpl; [done|].
  rewrite Hfg by left. rewrite IH; [done|]. intros; apply Hfg; by right.
Qed.

Lemma bind_app_perm {A B} (f g : A → list B) (xs : list A) :
  xs ≫= (λ x, f x ++ g x) ≡ₚ (xs ≫= f) ++ (xs ≫= g).
Proof.
  induction xs as [|x xs IH]; csimpl; [done|].
  rewrite IH. solve_Permutation.
Qed.

Lemma get_lookup_total (l : list Z) (i : nat) :
  (i < length l)%nat → get l i = Ok (l !!! i).
Proof.
  intros Hi. unfold get.
  destruct (lookup_lt_is_Some_2 l i Hi) as [x Hx].
  rewrite Hx. by rewrite (list_lookup_total_correct _ _ _ Hx).
Qed.

(** ** Sorting *)

Section sorting.
Context {A : Type} (le : A → A → bool).
Context (le_total : ∀ x y, le x y = false → le y x = true).

Lemma insert_sorted_perm x l : insert_sorted le x l ≡ₚ x :: l.
Proof.
  induction l as [|y l IH]; simpl; [done|].
  destruct (le x y); [done|]. rewrite IH. apply Permutation_swap.
Qed.

Lemma stable_sort_perm l : stable_sort le l ≡ₚ l.
Proof.
  induction l as [|x l IH]; simpl; [done|].
  rewrite insert_sorted_perm. by rewrite IH.
Qed.

Lemma is_sorted_cons x l :
  is_sorted le (x :: l) = true ↔
  match l with [] => True | y :: _ => le x y = true end
  ∧ is_sorted le l = true.
Proof.
  destruct l as [|y l]; simpl; [naive_solver|].
  rewrite andb_true_iff. naive_solver.
Qed.

Lemma insert_sorted_is_sorted x l :
  is_sorted le l = true → is_sorted le (insert_sorted le x l) = true.
Proof using le_total.
  induction l as [|y l IH]; intros Hl; [done|].
  cbn [insert_sorted]. destruct (le x y) eqn:Hxy.
  - apply is_sorted_cons. split; [done|done].
  - apply is_sorted_cons in Hl as [Hy Hl].
    apply is_sorted_cons. split; [|by apply IH].
    destruct l as [|z l]; cbn [insert_sorted].
    + by apply le_total.
    + destruct (le x z); [by apply le_total | done].
Qed.

Lemma stable_sort_is_sorted l : is_sorted le (stable_sort le l) = true.
Proof using le_total.
  induction l as [|x l IH]; [done|].
  by apply insert_sorted_is_sorted.
Qed.

Lemma stable_sort_sorted_id l :
  is_sorted le l = true → stable_sort le l = l.
Proof.
  induction l as [|x l IH]; intros Hl; [done|].
  apply is_sorted_cons in Hl as [Hx Hl].
  cbn [stable_sort foldr]. fold (stable_sort le l). rewrite IH by done.
  destruct l as [|y l]; [done|]. simpl. by rewrite Hx.
Qed.

Lemma is_sorted_Forall (le_trans : ∀ x y z, le x y = true → le y z = true → le x z = true) x l :
  is_sorted le (x :: l) = true → Forall (λ y, le x y = true) l.
Proof.
  revert x. induction l as [|y l IH]; intros x Hl; [constructor|].
  apply is_sorted_cons in Hl as [Hxy Hl].
  constructor; [done|].
  eapply Forall_impl; [by apply IH|]. intros z Hz; simpl in *. eauto.
Qed.

End sorting.

(** ** Reading the textual form *)

Lemma parse_arc_row_arc (rows : list (list Z)) :
  Forall (λ row, length row = 5%nat) rows →
  comprehension parse_arc rows = Ok (row_arc <$> rows).
Proof.
  intros Hrows. apply comprehension_fmap. intros row Hin.
  rewrite Forall_forall in Hrows. specialize (Hrows row Hin).
  by do 6 (destruct row as [|? row]; try done).
Qed.

Lemma from_str_snoc (rows : list (list Z)) (final : Z) :
  Forall (λ row, length row = 5%nat) rows →
  is_sorted Z.leb (src_state <$> (row_arc <$> rows)) = true →
  from_str (rows ++ [[final]]) = Ok (mkFsa (final + 1) (row_arc <$> rows)).
Proof.
  intros Hrows Hsorted. unfold from_str.
  rewrite last_snoc, removelast_last, parse_arc_row_arc by done.
  cbn. by rewrite Hsorted.
Qed.

Lemma StronglySorted_is_sorted (l : list Z) :
  StronglySorted Z.le l → is_sorted Z.leb l = true.
Proof.
  induction 1 as [|x l Hl IH Hx]; [done|].
  apply is_sorted_cons. split; [|done].
  destruct l as [|y l]; [done|]. apply Z.leb_le. by inversion Hx.
Qed.

(** Blocks of arcs, the block of [i] leaving state [i], are in source order. *)
Lemma blocks_src_sorted (blocks : nat → list Arc) (start len : nat) :
  (∀ i, Forall (λ a, src_state a = Z.of_nat i) (blocks i)) →
  StronglySorted Z.le (src_state <$> (seq start len ≫= blocks))
  ∧ Forall (λ s, Z.of_nat start ≤ s) (src_state <$> (seq start len ≫= blocks)).
Proof.
  intros Hblocks. revert start.
  induction len as [|len IH]; intros start; csimpl; [by split; constructor|].
  destruct (IH (S start)) as [IHs IHf].
  assert (Forall (λ s, s = Z.of_nat start) (src_state <$> blocks start)) as Hb.
  { rewrite Forall_fmap. apply Hblocks. }
  rewrite fmap_app. split.
  - apply StronglySorted_app; split_and!.
    + intros x1 x2 Hx1 Hx2.
      rewrite Forall_forall in Hb, IHf.
      rewrite (Hb _ Hx1). specialize (IHf _ Hx2). lia.
    + clear -Hb. induction Hb as [|x l -> Hl IHb]; constructor; [done|].
      eapply Forall_impl; [exact Hl|]. intros; simpl in *; lia.
    + done.
  - apply Forall_app. split.
    + eapply Forall_impl; [exact Hb|]. intros; simpl in *; lia.
    + eapply Forall_impl; [exact IHf|]. intros; simpl in *; lia.
Qed.

(** ** The quadratic topology *)

Lemma build_ctc_topo_rows_ok (tokens : list Z) :
  0 ∈ tokens →
  build_ctc_topo_rows tokens
  = Ok ((seq 0 (length tokens) ≫= topo_state_rows tokens)
        ++ [[Z.of_nat (length tokens)]]).
Proof.
  intros H0. unfold build_ctc_topo_rows.
  rewrite bool_decide_eq_true_2 by done. cbn.
  rewrite (for_append (topo_state_rows tokens)); [done|].
  intros i s Hi. apply elem_of_seq in Hi.
  rewrite (for_append (λ j, [topo_cell tokens i j])).
  - cbn. rewrite bind_singleton_fmap. unfold topo_state_rows.
    by rewrite app_assoc.
  - intros j s' Hj. apply elem_of_seq in Hj. unfold topo_cell.
    destruct (decide (i = j)) as [->|Hij];
      rewrite get_lookup_total by lia; done.
Qed.

Lemma fmap_bind_list {A B C} (f : B → C) (g : A → list B) (l : list A) :
  f <$> (l ≫= g) = l ≫= (λ x, f <$> g x).
Proof.
  induction l as [|x l IH]; csimpl; [done|]. by rewrite fmap_app, IH.
Qed.

Lemma length_bind_const {A B} (f : A → list B) (l : list A) (k : nat) :
  (∀ x, x ∈ l → length (f x) = k) → length (l ≫= f) = (length l * k)%nat.
Proof.
  induction l as [|x l IH]; intros Hf; csimpl; [done|].
  rewrite length_app, Hf by left.
  rewrite IH; [done|]. intros; apply Hf; by right.
Qed.

Lemma topo_cell_length tokens i j : length (topo_cell tokens i j) = 5%nat.
Proof. unfold topo_cell. by destruct (decide (i = j)). Qed.

Lemma topo_state_rows_length tokens i :
  Forall (λ row, length row = 5%nat) (topo_state_rows tokens i).
Proof.
  unfold topo_state_rows. apply Forall_app. split.
  - apply Forall_fmap, Forall_forall. intros; apply topo_cell_length.
  - by repeat constructor.
Qed.

Lemma topo_state_rows_src tokens i :
  Forall (λ a, src_state a = Z.of_nat i) (row_arc <$> topo_state_rows tokens i).
Proof.
  unfold topo_state_rows. rewrite fmap_app. apply Forall_app. split.
  - rewrite <- list_fmap_compose. apply Forall_fmap, Forall_forall.
    intros j _. unfold compose, topo_cell; simpl. by destruct (decide (i = j)).
  - by repeat constructor.
Qed.

Lemma build_ctc_topo_ok `{K2} (tokens : list Z) :
  0 ∈ tokens →
  build_ctc_topo tokens
  = Ok (arc_sort (mkFsa (Z.of_nat (length tokens) + 1)
          (row_arc <$> (seq 0 (length tokens) ≫= topo_state_rows tokens)))).
Proof.
  intros H0. unfold build_ctc_topo.
  rewrite build_ctc_topo_rows_ok by done. cbn.
  rewrite from_str_snoc; [done| |].
  - apply Forall_forall. intros row Hin.
    apply list_elem_of_bind in Hin as (i & Hrow & _).
    pose proof (topo_state_rows_length tokens i) as Hlen.
    rewrite Forall_forall in Hlen. by apply Hlen.
  - apply StronglySorted_is_sorted. rewrite fmap_bind_list.
    apply (blocks_src_sorted (λ i, row_arc <$> topo_state_rows tokens i)).
    apply topo_state_rows_src.
Qed.

(** The lines of one state, read as arcs: the self-loop, the arcs to the
    other token states, and the arc to the final state. *)
Lemma topo_cells_no_self tokens (i : nat) (js : list nat) :
  i ∉ js →
  (λ j, row_arc (topo_cell tokens i j)) <$> js
  = js ≫= (λ j : nat,
      if decide (i ≠ j)
      then [mkArc (Z.of_nat i) (Z.of_nat j) (tokens !!! j) (tokens !!! j) 0]
      else []).
Proof.
  induction js as [|j js IH]; intros Hi; csimpl; [done|].
  apply not_elem_of_cons in Hi as [Hij Hi].
  rewrite IH by done. unfold topo_cell.
  destruct (decide (i = j)); [done|]. by destruct (decide (i ≠ j)).
Qed.

Lemma topo_cells_split tokens (i : nat) (js : list nat) :
  NoDup js → i ∈ js →
  (λ j, row_arc (topo_cell tokens i j)) <$> js
  ≡ₚ mkArc (Z.of_nat i) (Z.of_nat i) (tokens !!! i) 0 0
     :: (js ≫= (λ j : nat,
           if decide (i ≠ j)
           then [mkArc (Z.of_nat i) (Z.of_nat j) (tokens !!! j) (tokens !!! j) 0]
           else [])).
Proof.
  induction js as [|j js IH]; intros Hnd Hi; [by apply elem_of_nil in Hi|].
  apply NoDup_cons in Hnd as [Hj Hnd]. csimpl.
  destruct (decide (i = j)) as [<-|Hij].
  - rewrite topo_cells_no_self by done. unfold topo_cell.
    rewrite decide_True by done.
    destruct (decide (i ≠ i)); [done|]. done.
  - apply elem_of_cons in Hi as [?|Hi]; [done|].
    rewrite IH by done. unfold topo_cell.
    rewrite decide_False by done. rewrite decide_True by done.
    csimpl. apply Permutation_swap.
Qed.

Lemma topo_state_arcs_perm tokens (i : nat) :
  (i < length tokens)%nat →
  row_arc <$> topo_state_rows tokens i
  ≡ₚ ([mkArc (Z.of_nat i) (Z.of_nat i) (tokens !!! i) 0 0]
      ++ topo_cross_from tokens i)
     ++ [mkArc (Z.of_nat i) (Z.of_nat (length tokens)) (-1) (-1) 0].
Proof.
  intros Hi. unfold topo_state_rows. rewrite fmap_app.
  rewrite <- list_fmap_compose.
  rewrite (topo_cells_split tokens i (seq 0 (length tokens)));
    [done|apply NoDup_seq|apply elem_of_seq; lia].
Qed.

Lemma topo_arcs_perm (tokens : list Z) :
  row_arc <$> (seq 0 (length tokens) ≫= topo_state_rows tokens)
  ≡ₚ topo_self_loops tokens ++ topo_cross_arcs tokens ++ topo_final_arcs tokens.
Proof.
  rewrite fmap_bind_list.
  rewrite (bind_perm_in _ (λ i,
    ([mkArc (Z.of_nat i) (Z.of_nat i) (tokens !!! i) 0 0]
      ++ topo_cross_from tokens i)
     ++ [mkArc (Z.of_nat i) (Z.of_nat (length tokens)) (-1) (-1) 0])).
  2: { intros i Hi. apply elem_of_seq in Hi.
       apply topo_state_arcs_perm. lia. }
  rewrite bind_app_perm, bind_app_perm.
  rewrite !bind_singleton_fmap. unfold topo_self_loops, topo_final_arcs.
  by rewrite <- app_assoc.
Qed.

Lemma topo_cross_from_length tokens (i : nat) :
  (i < length tokens)%nat →
  length (topo_cross_from tokens i) = (length tokens - 1)%nat.
Proof.
  intros Hi.
  pose proof (topo_cells_split tokens i (seq 0 (length tokens))
                (NoDup_seq _ _)) as Hperm.
  apply Permutation_length in Hperm; [|apply elem_of_seq; lia].
  rewrite length_fmap, length_seq in Hperm. simpl in Hperm.
  unfold topo_cross_from. lia.
Qed.

Lemma topo_cross_arcs_length tokens :
  length (topo_cross_arcs tokens) = (length tokens * (length tokens - 1))%nat.
Proof.
  unfold topo_cross_arcs.
  rewrite (length_bind_const _ _ (length tokens - 1)).
  - by rewrite length_seq.
  - intros i Hi. apply elem_of_seq in Hi.
    apply (topo_cross_from_length tokens i). lia.
Qed.

(** ** The linear topology *)

Lemma list_remove_ok (x : Z) (l : list Z) :
  x ∈ l →
  ∃ l', list_remove x l = Ok l' ∧ length l = S (length l') ∧ l ≡ₚ x :: l'.
Proof.
  induction l as [|y l IH]; intros Hin; [by apply elem_of_nil in Hin|].
  simpl. destruct (decide (y = x)) as [->|Hne].
  - by exists l.
  - apply elem_of_cons in Hin as [?|Hin]; [congruence|].
    destruct (IH Hin) as (l' & -> & Hlen & Hperm).
    exists (y :: l'). simpl. split_and!; [done|lia|].
    rewrite Hperm. apply Permutation_swap.
Qed.

Lemma elem_of_enumerate {A} (l : list A) (i : nat) (x : A) :
  (i, x) ∈ enumerate l → (i < length l)%nat ∧ l !! i = Some x.
Proof.
  unfold enumerate. intros Hin.
  apply list_elem_of_lookup in Hin as [k Hk].
  apply lookup_zip_with_Some in Hk as (i' & x' & [= <- <-] & Hi & Hx).
  apply lookup_seq in Hi as [-> Hlt]. simpl. done.
Qed.

Lemma is_sorted_app_l {A} (le : A → A → bool) (l1 l2 : list A) :
  is_sorted le (l1 ++ l2) = true → is_sorted le l1 = true.
Proof.
  induction l1 as [|x l1 IH]; [done|]. rewrite <- app_comm_cons.
  intros [Hx Hl]%is_sorted_cons. apply is_sorted_cons.
  split; [|by apply IH]. by destruct l1.
Qed.

Lemma is_sorted_keys {A} (l : list (Z * A)) :
  is_sorted key_le l = is_sorted Z.leb (l.*1).
Proof.
  induction l as [|x l IH]; [done|].
  destruct l as [|y l]; [done|]. simpl in *. by rewrite IH.
Qed.

Lemma key_le_total {A} (x y : Z * A) : key_le x y = false → key_le y x = true.
Proof. unfold key_le. lia. Qed.

Lemma key_le_trans {A} (x y z : Z * A) :
  key_le x y = true → key_le y z = true → key_le x z = true.
Proof. unfold key_le. lia. Qed.

(** In a list sorted on its keys, an element whose key is larger than every
    other key comes last. *)
Lemma sorted_max_last {A} (l rest : list (Z * A)) (x : Z * A) :
  is_sorted key_le l = true →
  l ≡ₚ x :: rest →
  Forall (λ y, y.1 < x.1) rest →
  ∃ l', l = l' ++ [x] ∧ l' ≡ₚ rest.
Proof.
  revert rest. induction l as [|a l IH]; intros rest Hsorted Hperm Hrest.
  { by apply Permutation_nil_cons in Hperm. }
  destruct l as [|z l].
  { apply Permutation_singleton_l in Hperm as [= -> <-]. by exists []. }
  pose proof (is_sorted_Forall key_le key_le_trans _ _ Hsorted) as Hle.
  apply is_sorted_cons in Hsorted as [_ Hsorted].
  assert (a ∈ x :: rest) as Ha by (rewrite <- Hperm; left).
  apply elem_of_cons in Ha as [->|Ha].
  - apply Permutation_cons_inv in Hperm.
    assert (z ∈ rest) as Hz by (rewrite <- Hperm; left).
    rewrite Forall_forall in Hrest. specialize (Hrest z Hz).
    apply Forall_cons in Hle as [Hxz _]. unfold key_le in Hxz. lia.
  - apply elem_of_Permutation in Ha as [rest' Hrest'].
    assert (z :: l ≡ₚ x :: rest') as Hperm'.
    { apply (Permutation_cons_inv (a := a)).
      rewrite Hperm, Hrest'. apply Permutation_swap. }
    destruct (IH rest' Hsorted Hperm') as (l' & Hl' & Hpl').
    { rewrite Hrest' in Hrest. by apply Forall_cons in Hrest as [_ ?]. }
    exists (a :: l'). rewrite Hl'. split; [done|].
    by rewrite Hpl', Hrest'.
Qed.

Lemma sorted_by_first_snoc (rows body : list (list Z)) (final : Z) :
  rows ≡ₚ [final] :: body →
  Forall (λ row, length row = 5%nat ∧ first_field row < final) body →
  ∃ body',
    sorted_by_first rows = Ok (body' ++ [[final]])
    ∧ body' ≡ₚ body
    ∧ is_sorted Z.leb (first_field <$> (body' ++ [[final]])) = true.
Proof.
  intros Hperm Hbody.
  assert (Forall (λ row, length row ≠ 0%nat) rows) as Hne.
  { rewrite Hperm. constructor; [done|].
    eapply Forall_impl; [exact Hbody|]. intros row [-> _]. done. }
  unfold sorted_by_first.
  rewrite (comprehension_fmap _ first_field).
  2: { intros row Hin. rewrite Forall_forall in Hne.
       specialize (Hne row Hin). by destruct row. }
  cbn.
  set (keyed := λ row : list Z, (first_field row, row)).
  assert (zip (first_field <$> rows) rows = keyed <$> rows) as ->.
  { clear. induction rows as [|r rows IH]; [done|]. csimpl. by f_equal. }
  pose proof (stable_sort_perm key_le (keyed <$> rows)) as HSperm.
  pose proof (stable_sort_is_sorted key_le key_le_total (keyed <$> rows))
    as HSsorted.
  destruct (sorted_max_last (stable_sort key_le (keyed <$> rows))
              (keyed <$> body) (keyed [final])) as (S' & HS & HS').
  - done.
  - by rewrite HSperm, Hperm.
  - apply Forall_fmap. eapply Forall_impl; [exact Hbody|].
    intros row [_ Hlt]. done.
  - exists (S'.*2). split_and!.
    + by rewrite HS, fmap_app.
    + rewrite HS'. rewrite <- list_fmap_compose.
      clear. induction body as [|r body IH]; csimpl; [done | by constructor].
    + change (S'.*2 ++ [[final]]) with (S'.*2 ++ [keyed [final]].*2).
      rewrite <- fmap_app, <- HS.
      assert (first_field <$> (stable_sort key_le (keyed <$> rows)).*2
              = (stable_sort key_le (keyed <$> rows)).*1) as ->.
      { rewrite <- list_fmap_compose. apply Forall_fmap_ext.
        rewrite HSperm. apply Forall_fmap, Forall_forall. done. }
      by rewrite <- is_sorted_keys.
Qed.

Lemma topo2_arc_rows_ok (phones : list Z) :
  Forall (λ row, length row = 5%nat
                 ∧ first_field row < Z.of_nat (length phones) + 1)
    (topo2_arc_rows phones).
Proof.
  unfold topo2_arc_rows. apply Forall_app. split.
  - repeat constructor; unfold first_field; simpl; lia.
  - apply Forall_forall. intros row Hin.
    apply list_elem_of_bind in Hin as ([i p] & Hrow & Hip).
    apply elem_of_enumerate in Hip as [Hi _].
    unfold topo2_phone_rows in Hrow. simpl in Hrow.
    set_unfold in Hrow.
    destruct Hrow as [-> | [-> | [-> | [-> | []]]]]; unfold first_field; simpl; split; lia.
Qed.

Lemma topo2_arc_rows_arcs (phones : list Z) :
  row_arc <$> topo2_arc_rows phones = topo2_arcs phones.
Proof.
  unfold topo2_arc_rows, topo2_arcs. rewrite fmap_app, fmap_bind_list. done.
Qed.

Lemma build_ctc_topo2_rows_ok (phones ps : list Z) :
  0 ∈ phones → list_remove 0 phones = Ok ps →
  ∃ body',
    build_ctc_topo2_rows phones
    = Ok (body' ++ [[Z.of_nat (length ps) + 1]])
    ∧ body' ≡ₚ topo2_arc_rows ps
    ∧ is_sorted Z.leb
        (first_field <$> (body' ++ [[Z.of_nat (length ps) + 1]])) = true.
Proof.
  intros H0 Hps. unfold build_ctc_topo2_rows.
  rewrite bool_decide_eq_true_2 by done. cbn. rewrite Hps. cbn.
  rewrite (for_append topo2_phone_rows).
  2: { by intros [i p] s' _. }
  rewrite bind_Ok.
  apply sorted_by_first_snoc; [|apply topo2_arc_rows_ok].
  unfold topo2_arc_rows. symmetry. apply (Permutation_middle [_; _]).
Qed.

Lemma build_ctc_topo2_ok `{K2} (phones ps : list Z) :
  0 ∈ phones → list_remove 0 phones = Ok ps →
  ∃ rows arcs',
    build_ctc_topo2_rows phones = Ok rows
    ∧ is_sorted Z.leb (first_field <$> rows) = true
    ∧ from_str rows = Ok (mkFsa (Z.of_nat (length ps) + 2) arcs')
    ∧ build_ctc_topo2 phones
      = Ok (arc_sort (mkFsa (Z.of_nat (length ps) + 2) arcs'))
    ∧ arcs' ≡ₚ topo2_arcs ps.
Proof.
  intros H0 Hps.
  destruct (build_ctc_topo2_rows_ok phones ps H0 Hps)
    as (body' & Hrows & Hperm & Hsorted).
  assert (Forall (λ row, length row = 5%nat) body') as Hlen.
  { rewrite Hperm. eapply Forall_impl; [apply topo2_arc_rows_ok|].
    by intros row [? _]. }
  assert (from_str (body' ++ [[Z.of_nat (length ps) + 1]])
          = Ok (mkFsa (Z.of_nat (length ps) + 2) (row_arc <$> body')))
    as Hfrom.
  { rewrite from_str_snoc; [|done|].
    - do 2 f_equal. lia.
    - rewrite fmap_app in Hsorted. apply is_sorted_app_l in Hsorted.
      rewrite <- list_fmap_compose.
      erewrite Forall_fmap_ext_1; [exact Hsorted|].
      eapply Forall_impl; [exact Hlen|]. intros row Hrow. simpl.
      by do 6 (destruct row as [|? row]; try done). }
  eexists _, (row_arc <$> body'). split_and!; [done|done|done| |].
  - unfold build_ctc_topo2. by rewrite Hrows, bind_Ok, Hfrom.
  - by rewrite Hperm, topo2_arc_rows_arcs.
Qed.

(** ** The store: rules *)

Section wp_rules.
Context {A B : Type}.
Implicit Types (h : store) (Ψ : exn → store → Prop).

Lemma wp_bind (m : M A) (f : A → M B) Φ Ψ h :
  wp m (λ a h', wp (f a) Φ Ψ h') Ψ h → wp (m ≫= f) Φ Ψ h.
Proof.
  unfold wp, mbind, M_bind. by destruct (m h) as [[a|e] h'].
Qed.

Lemma wp_ret (a : A) (Φ : A → store → Prop) Ψ h : Φ a h → wp (mret a) Φ Ψ h.
Proof. done. Qed.

Lemma wp_lift (r : result A) (Φ : A → store → Prop) Ψ h :
  match r with Ok a => Φ a h | Raise e => Ψ e h end → wp (lift r) Φ Ψ h.
Proof. done. Qed.

Lemma wp_mono (m : M A) (Φ Φ' : A → store → Prop) Ψ Ψ' h :
  wp m Φ Ψ h →
  (∀ a h', Φ a h' → Φ' a h') → (∀ e h', Ψ e h' → Ψ' e h') →
  wp m Φ' Ψ' h.
Proof.
  unfold wp. destruct (m h) as [[a|e] h']; eauto.
Qed.

Lemma wp_run (m : M A) (Φ : A → store → Prop) h :
  wp m Φ never h → ∃ a h', m h = (Ok a, h') ∧ Φ a h'.
Proof.
  unfold wp. destruct (m h) as [[a|e] h']; [eauto | done].
Qed.

End wp_rules.

Lemma wp_alloc (o : Obj) (Φ : loc → store → Prop) Ψ (h : store) :
  (∀ l, h !! l = None → Φ l (<[l:=o]> h)) → wp (alloc o) Φ Ψ h.
Proof.
  intros HΦ. unfold wp, alloc. apply HΦ.
  apply not_elem_of_dom, is_fresh.
Qed.

Lemma wp_deref_fsa (l : loc) (Φ : FsaVal * bool → store → Prop) Ψ (h : store) :
  match h !! l with
  | Some (FsaObj v g) => Φ (v, g) h
  | _ => Ψ TypeError h
  end → wp (deref_fsa l) Φ Ψ h.
Proof. unfold wp, deref_fsa. by destruct (h !! l) as [[]|]. Qed.

Lemma wp_deref_compiler (l : loc) (Φ : Compiler → store → Prop) Ψ (h : store) :
  match h !! l with
  | Some (CompilerObj c) => Φ c h
  | _ => Ψ TypeError h
  end → wp (deref_compiler l) Φ Ψ h.
Proof. unfold wp, deref_compiler. by destruct (h !! l) as [[]|]. Qed.

Lemma wp_update (l : loc) (o : Obj) (Φ : unit → store → Prop) Ψ (h : store) :
  Φ () (<[l:=o]> h) → wp (update l o) Φ Ψ h.
Proof. done. Qed.

(** ** The store: what is left alone *)

Section framed.
Context (h0 : store).

Lemma framed_bind {A B} (m : M A) (f : A → M B) (Q : A → Prop) (R : B → Prop) :
  framed h0 m Q → (∀ a, Q a → framed h0 (f a) R) → framed h0 (m ≫= f) R.
Proof.
  intros Hm Hf h Hh. apply wp_bind.
  eapply wp_mono; [by apply Hm| |done].
  intros a h' [Hh' Ha]. simpl. by apply Hf.
Qed.

Lemma framed_ret {A} (a : A) (Q : A → Prop) : Q a → framed h0 (mret a) Q.
Proof. intros Ha h Hh. by apply wp_ret. Qed.

Lemma framed_lift {A} (r : result A) : framed h0 (lift r) (λ _, True).
Proof. intros h Hh. apply wp_lift. by destruct r. Qed.

Lemma framed_alloc (o : Obj) : framed h0 (alloc o) (owned h0).
Proof.
  intros h Hh. apply wp_alloc. intros l Hl. split.
  - etrans; [done|]. by apply insert_subseteq.
  - unfold owned. eapply lookup_weaken_None; done.
Qed.

Lemma framed_deref_fsa (l : loc) : framed h0 (deref_fsa l) (λ _, True).
Proof. intros h Hh. apply wp_deref_fsa. by destruct (h !! l) as [[]|]. Qed.

Lemma framed_deref_compiler (l : loc) :
  framed h0 (deref_compiler l) (λ _, True).
Proof. intros h Hh. apply wp_deref_compiler. by destruct (h !! l) as [[]|]. Qed.

Lemma framed_update (l : loc) (o : Obj) :
  owned h0 l → framed h0 (update l o) (λ _, True).
Proof.
  intros Hl h Hh. apply wp_update. split; [|done].
  by apply insert_subseteq_r.
Qed.

Context `{K2}.

Lemma framed_k2_arc_sort (fsa : loc) :
  owned h0 fsa → framed h0 (k2_arc_sort fsa) (owned h0).
Proof.
  intros Hl. eapply framed_bind; [apply framed_deref_fsa|].
  intros [v g] _. destruct (val_all is_arc_sorted v).
  - by apply framed_ret.
  - apply framed_alloc.
Qed.

Lemma framed_k2_connect (fsa : loc) :
  owned h0 fsa → framed h0 (k2_connect fsa) (owned h0).
Proof.
  intros Hl. eapply framed_bind; [apply framed_deref_fsa|].
  intros [v g] _. destruct (val_all connected v).
  - by apply framed_ret.
  - apply framed_alloc.
Qed.

Lemma framed_k2_linear_fsa (labels : list (list Z)) :
  framed h0 (k2_linear_fsa labels) (owned h0).
Proof. apply framed_alloc. Qed.

Lemma framed_k2_intersect (a_fsa b_fsa : loc) :
  framed h0 (k2_intersect a_fsa b_fsa) (owned h0).
Proof.
  eapply framed_bind; [apply framed_deref_fsa|]. intros [va ga] _.
  eapply framed_bind; [apply framed_deref_fsa|]. intros [vb gb] _.
  apply framed_alloc.
Qed.

Lemma framed_k2_compose (a_fsa b_fsa : loc) :
  framed h0 (k2_compose a_fsa b_fsa) (owned h0).
Proof.
  eapply framed_bind; [apply framed_deref_fsa|]. intros [va ga] _.
  eapply framed_bind; [apply framed_deref_fsa|]. intros [vb gb] _.
  apply framed_alloc.
Qed.

Lemma framed_invert_ (fsa : loc) :
  owned h0 fsa → framed h0 (invert_ fsa) (owned h0).
Proof.
  intros Hl. eapply framed_bind; [apply framed_deref_fsa|]. intros [v g] _.
  eapply framed_bind; [by apply framed_update|]. intros _ _.
  by apply framed_ret.
Qed.

Lemma framed_requires_grad_ (fsa : loc) (b : bool) :
  owned h0 fsa → framed h0 (requires_grad_ fsa b) (owned h0).
Proof.
  intros Hl. eapply framed_bind; [apply framed_deref_fsa|]. intros [v g] _.
  eapply framed_bind; [by apply framed_update|]. intros _ _.
  by apply framed_ret.
Qed.

Lemma framed_compile (self : loc) (texts : list string) :
  framed h0 (compile self texts) (owned h0).
Proof.
  unfold compile.
  eapply framed_bind; [apply framed_deref_compiler|]. intros c _.
  eapply framed_bind; [apply framed_lift|]. intros word_ids _.
  eapply framed_bind; [apply framed_k2_linear_fsa|]. intros l1 Hl1.
  eapply framed_bind; [apply framed_deref_compiler|]. intros c1 _.
  eapply framed_bind; [apply framed_k2_intersect|]. intros l2 Hl2.
  eapply framed_bind; [by apply framed_k2_connect|]. intros l3 Hl3.
  eapply framed_bind; [by apply framed_invert_|]. intros l4 Hl4.
  eapply framed_bind; [by apply framed_k2_arc_sort|]. intros l5 Hl5.
  eapply framed_bind; [apply framed_deref_compiler|]. intros c2 _.
  eapply framed_bind; [apply framed_k2_compose|]. intros l6 Hl6.
  eapply framed_bind; [by apply framed_k2_connect|]. intros l7 Hl7.
  eapply framed_bind; [by apply framed_requires_grad_|]. intros l8 Hl8.
  by apply framed_ret.
Qed.

End framed.

(** ** The store: what the toolkit's functions return *)

Lemma val_map_noop (p : Fsa → bool) (g : Fsa → Fsa) (v : FsaVal) :
  (∀ f, p f = true → g f = f) → val_all p v = true → val_map g v = v.
Proof.
  intros Hg. destruct v as [f|fs]; simpl; intros Hv.
  - by rewrite Hg.
  - f_equal. induction fs as [|f fs IH]; [done|].
    simpl in Hv. apply andb_true_iff in Hv as [Hf Hfs].
    csimpl. by rewrite Hg, IH.
Qed.

Section returns.
Context `{K2Laws} (h0 : store).

Lemma holds_alloc (v : FsaVal) (g : bool) (h : store) (l : loc) :
  h0 ⊆ h → h !! l = None → holds h0 v g l (<[l:=FsaObj v g]> h).
Proof.
  intros Hh Hl. split_and!.
  - etrans; [done|]. by apply insert_subseteq.
  - unfold owned. by eapply lookup_weaken_None.
  - apply lookup_insert_eq.
Qed.

Lemma holds_update (v v' : FsaVal) (g g' : bool) (h : store) (l : loc) :
  holds h0 v g l h → holds h0 v' g' l (<[l:=FsaObj v' g']> h).
Proof.
  intros (Hh & Hl & _). split_and!; [|done|apply lookup_insert_eq].
  by apply insert_subseteq_r.
Qed.

Lemma wp_k2_linear_fsa (labels : list (list Z)) (h : store) :
  h0 ⊆ h →
  wp (k2_linear_fsa labels) (holds h0 (Vec (linear_fsa <$> labels)) false)
    never h.
Proof. intros Hh. apply wp_alloc. intros l Hl. by apply holds_alloc. Qed.

Lemma wp_k2_intersect (a b : loc) va ga vb gb (h : store) :
  h0 ⊆ h → h !! a = Some (FsaObj va ga) → h !! b = Some (FsaObj vb gb) →
  wp (k2_intersect a b) (holds h0 (val_map2 intersect va vb) (ga || gb))
    never h.
Proof.
  intros Hh Ha Hb. unfold k2_intersect.
  apply wp_bind, wp_deref_fsa. rewrite Ha.
  apply wp_bind, wp_deref_fsa. rewrite Hb.
  apply wp_alloc. intros l Hl. by apply holds_alloc.
Qed.

Lemma wp_k2_compose (a b : loc) va ga vb gb (h : store) :
  h0 ⊆ h → h !! a = Some (FsaObj va ga) → h !! b = Some (FsaObj vb gb) →
  wp (k2_compose a b) (holds h0 (val_map2 compose va vb) (ga || gb))
    never h.
Proof.
  intros Hh Ha Hb. unfold k2_compose.
  apply wp_bind, wp_deref_fsa. rewrite Ha.
  apply wp_bind, wp_deref_fsa. rewrite Hb.
  apply wp_alloc. intros l Hl. by apply holds_alloc.
Qed.

Lemma wp_k2_connect (l : loc) v g (h : store) :
  holds h0 v g l h →
  wp (k2_connect l) (holds h0 (val_map connect v) g) never h.
Proof.
  intros Hl. pose proof Hl as (Hh & Hown & Hlook). unfold k2_connect.
  apply wp_bind, wp_deref_fsa. rewrite Hlook.
  destruct (val_all connected v) eqn:Hv.
  - apply wp_ret. by rewrite (val_map_noop connected) by auto using connect_noop.
  - apply wp_alloc. intros l' Hl'. by apply holds_alloc.
Qed.

Lemma wp_k2_arc_sort (l : loc) v g (h : store) :
  holds h0 v g l h →
  wp (k2_arc_sort l) (holds h0 (val_map arc_sort v) g) never h.
Proof.
  intros Hl. pose proof Hl as (Hh & Hown & Hlook). unfold k2_arc_sort.
  apply wp_bind, wp_deref_fsa. rewrite Hlook.
  destruct (val_all is_arc_sorted v) eqn:Hv.
  - apply wp_ret.
    by rewrite (val_map_noop is_arc_sorted) by auto using arc_sort_noop.
  - apply wp_alloc. intros l' Hl'. by apply holds_alloc.
Qed.

Lemma wp_invert_ (l : loc) v g (h : store) :
  holds h0 v g l h →
  wp (invert_ l) (holds h0 (val_map invert v) g) never h.
Proof.
  intros Hl. pose proof Hl as (Hh & Hown & Hlook). unfold invert_.
  apply wp_bind, wp_deref_fsa. rewrite Hlook.
  apply wp_bind, wp_update, wp_ret. by eapply holds_update.
Qed.

Lemma wp_requires_grad_ (l : loc) v g (b : bool) (h : store) :
  holds h0 v g l h →
  wp (requires_grad_ l b) (λ l' h', l' = l ∧ holds h0 v b l h') never h.
Proof.
  intros Hl. pose proof Hl as (Hh & Hown & Hlook). unfold requires_grad_.
  apply wp_bind, wp_deref_fsa. rewrite Hlook.
  apply wp_bind, wp_update, wp_ret. split; [done|]. by eapply holds_update.
Qed.

End returns.

(** ** Transcripts to word ids *)

Lemma comprehension_fmap_fmap {A B C} (f : B → result C) (k : A → B)
    (g : A → C) (xs : list A) :
  (∀ x, x ∈ xs → f (k x) = Ok (g x)) →
  comprehension f (k <$> xs) = Ok (g <$> xs).
Proof.
  induction xs as [|x xs IH]; intros Hf; csimpl; [done|].
  rewrite Hf by left. rewrite bind_Ok.
  rewrite IH by (intros; apply Hf; by right). done.
Qed.

Lemma getitem_or_oov (table : SymbolTable) (oov : string) (u : Z) (token : string) :
  sym2id table !! oov = Some u →
  getitem table (if contains table token then token else oov)
  = Ok (default u (sym2id table !! token)).
Proof.
  intros Hoov. unfold contains, getitem.
  destruct (sym2id table !! token) as [i|] eqn:Htoken.
  - rewrite bool_decide_eq_true_2 by eauto. by rewrite Htoken.
  - rewrite bool_decide_eq_false_2 by (by intros [? ?]). by rewrite Hoov.
Qed.

Lemma compile_word_ids_ok (self : Compiler) (u : Z) (texts : list string) :
  sym2id (words self) !! oov self = Some u →
  compile_word_ids self texts = Ok (transcript_ids (words self) u <$> texts).
Proof.
  intros Hoov. unfold compile_word_ids.
  rewrite (for_append (λ text, [transcript_ids (words self) u text])).
  - by rewrite bind_singleton_fmap.
  - intros text s _.
    rewrite (comprehension_fmap_fmap _ _
               (λ word, default u (sym2id (words self) !! word))).
    + done.
    + intros token _. by apply getitem_or_oov.
Qed.

(** ** [compile], step by step *)

Lemma utterance_graphs_fmap `{K2} (L T : Fsa) (ids : list (list Z)) :
  val_map connect
    (val_map2 compose (One T)
       (val_map arc_sort
          (val_map invert
             (val_map connect
                (val_map2 intersect (Vec (linear_fsa <$> ids)) (One L))))))
  = Vec (utterance_graph L T <$> ids).
Proof.
  simpl. f_equal. rewrite <- !list_fmap_compose. done.
Qed.

Lemma compile_returns `{K2Laws} (h : store) (self : loc) (c : Compiler)
    (L T : Fsa) (gL gT : bool) (u : Z) (texts : list string) :
  h !! self = Some (CompilerObj c) →
  h !! L_inv c = Some (FsaObj (One L) gL) →
  h !! ctc_topo c = Some (FsaObj (One T) gT) →
  sym2id (words c) !! oov c = Some u →
  wp (compile self texts)
    (holds h
       (Vec (utterance_graph L T <$> (transcript_ids (words c) u <$> texts)))
       false)
    never h.
Proof.
  intros Hself HL HT Hoov. unfold compile.
  apply wp_bind, wp_deref_compiler. rewrite Hself.
  apply wp_bind, wp_lift. rewrite (compile_word_ids_ok c u) by done.
  apply wp_bind. eapply wp_mono; [by apply (wp_k2_linear_fsa h)| |done].
  intros l1 h1 (Hh1 & Hl1 & Hv1). simpl.
  apply wp_bind, wp_deref_compiler. rewrite (lookup_weaken _ _ _ _ Hself Hh1).
  apply wp_bind.
  eapply wp_mono;
    [by eapply (wp_k2_intersect h), lookup_weaken| |done].
  intros l2 h2 Hl2. simpl.
  apply wp_bind. eapply wp_mono; [by apply wp_k2_connect| |done].
  intros l3 h3 Hl3. simpl.
  apply wp_bind. eapply wp_mono; [by apply wp_invert_| |done].
  intros l4 h4 Hl4. simpl.
  apply wp_bind. eapply wp_mono; [by apply wp_k2_arc_sort| |done].
  intros l5 h5 Hl5. simpl. pose proof Hl5 as (Hh5 & _ & Hv5).
  apply wp_bind, wp_deref_compiler. rewrite (lookup_weaken _ _ _ _ Hself Hh5).
  apply wp_bind.
  eapply wp_mono;
    [eapply (wp_k2_compose h); [done|by eapply lookup_weaken|done]| |done].
  intros l6 h6 Hl6. simpl.
  apply wp_bind. eapply wp_mono; [by apply wp_k2_connect| |done].
  intros l7 h7 Hl7. simpl.
  apply wp_bind. eapply wp_mono; [by eapply wp_requires_grad_| |done].
  intros l8 h8 [_ Hl8]. simpl. apply wp_ret.
  rewrite utterance_graphs_fmap in Hl8. done.
Qed.

(** ** The reference toolkit satisfies the laws *)

Lemma arc_le_total (a b : Arc) :
  Reference.arc_le a b = false → Reference.arc_le b a = true.
Proof.
  unfold Reference.arc_le. intros Hab.
  apply bool_decide_eq_false in Hab. apply bool_decide_eq_true. lia.
Qed.

Lemma reference_sorted_bit (f : Fsa) :
  @is_arc_sorted Reference.toolkit f = is_sorted Reference.arc_le (arcs f).
Proof.
  unfold is_arc_sorted. simpl. unfold Reference.properties.
  by destruct (is_sorted Reference.arc_le (arcs f)).
Qed.

Lemma reference_laws : @K2Laws Reference.toolkit.
Proof.
  split.
  - intros f. apply stable_sort_perm.
  - done.
  - intros f. rewrite reference_sorted_bit.
    apply stable_sort_is_sorted, arc_le_total.
  - intros f. rewrite reference_sorted_bit. intros Hf. destruct f as [n l].
    simpl in *. unfold Reference.arc_sort. simpl.
    by rewrite stable_sort_sorted_id.
  - intros f Hf. by apply bool_decide_eq_true in Hf.
Qed.

(** ** [split] *)

Lemma split_nonempty (text : string) : split text ≠ [].
Proof.
  destruct text as [|c rest]; [done|]. simpl.
  destruct (Ascii.eqb c " "); [done|]. by destruct (split rest).
Qed.

Lemma split_space (s1 s2 : string) :
  split (s1 +:+ String " " s2) = split s1 ++ split s2.
Proof.
  induction s1 as [|c s1 IH]; [done|].
  simpl. rewrite IH.
  destruct (Ascii.eqb c " "); [done|].
  pose proof (split_nonempty s1). by destruct (split s1).
Qed.

Lemma split_leading (s : string) : split (" " +:+ s) = EmptyString :: split s.
Proof. done. Qed.

Lemma split_trailing (s : string) : split (s +:+ " ") = split s ++ [EmptyString].
Proof. exact (split_space s EmptyString). Qed.

Lemma split_consecutive (s1 s2 : string) :
  split (s1 +:+ "  " +:+ s2) = split s1 ++ EmptyString :: split s2.
Proof. exact (split_space s1 (String " " s2)). Qed.

(** ** Construction *)

Section construction.
Context `{K2Laws} (get_phone_symbols : SymbolTable → list Z).

Lemma build_ctc_topo_sorted (tokens : list Z) (T : Fsa) :
  build_ctc_topo tokens = Ok T → arc_sort T = T.
Proof.
  unfold build_ctc_topo. destruct (build_ctc_topo_rows tokens); [|done].
  simpl. destruct (from_str a); [|done]. simpl. intros [= <-].
  apply arc_sort_noop, arc_sort_sorted.
Qed.

Lemma build_ctc_topo2_sorted (tokens : list Z) (T : Fsa) :
  build_ctc_topo2 tokens = Ok T → arc_sort T = T.
Proof.
  unfold build_ctc_topo2. destruct (build_ctc_topo2_rows tokens); [|done].
  simpl. destruct (from_str a); [|done]. simpl. intros [= <-].
  apply arc_sort_noop, arc_sort_sorted.
Qed.

(** The object that [__init__] gets as [L_inv] after its first two lines
    is the one it was given. *)
Lemma wp_init_lexicon (L : loc) (v : FsaVal) (g : bool) (h : store)
    (Φ : loc → store → Prop) Ψ :
  h !! L = Some (FsaObj v g) →
  Φ L h →
  wp (if val_all is_arc_sorted v then k2_arc_sort L else mret L) Φ Ψ h.
Proof.
  intros HL HΦ. destruct (val_all is_arc_sorted v) eqn:Hv; [|done].
  unfold k2_arc_sort. apply wp_bind, wp_deref_fsa. rewrite HL, Hv. done.
Qed.

Lemma wp_new_topology (r : result Fsa) (T : Fsa) (h0 h : store) :
  r = Ok T → arc_sort T = T → h0 ⊆ h →
  wp (t ← new_fsa r; k2_arc_sort t) (holds h0 (One T) false) never h.
Proof.
  intros -> HT Hh. apply wp_bind. unfold new_fsa.
  apply wp_bind, wp_lift, wp_alloc. intros t Ht.
  eapply wp_mono; [apply (wp_k2_arc_sort h0), holds_alloc; done| |done].
  intros t' h' Ht'. simpl in Ht'. by rewrite HT in Ht'.
Qed.

Lemma init_returns (L : loc) (v : FsaVal) (g : bool) (phones words : SymbolTable)
    (topo oov : string) (h : store) :
  h !! L = Some (FsaObj v g) →
  contains words oov = true →
  wp (__init__ get_phone_symbols L phones words topo oov)
    (λ self h',
       h ⊆ h' ∧ owned h self
       ∧ ∃ t T,
           h' !! self = Some (CompilerObj (mkCompiler L phones words oov t))
           ∧ holds h (One T) false t h'
           ∧ (if decide (topo = "normal"%string)
              then build_ctc_topo (0 :: get_phone_symbols phones) = Ok T
              else build_ctc_topo2 (0 :: get_phone_symbols phones) = Ok T))
    never h.
Proof.
  intros HL Hoov. unfold __init__.
  apply wp_bind, wp_deref_fsa. rewrite HL.
  apply wp_bind, (wp_init_lexicon L v g); [done|].
  apply wp_bind, wp_lift. rewrite Hoov. simpl.
  assert (0 ∈ 0 :: get_phone_symbols phones) as Hblank by left.
  assert (∃ T, (if decide (topo = "normal"%string)
                then build_ctc_topo (0 :: get_phone_symbols phones)
                else build_ctc_topo2 (0 :: get_phone_symbols phones)) = Ok T
               ∧ arc_sort T = T) as (T & HT & Hsorted).
  { destruct (decide (topo = "normal"%string)).
    - eexists. split; [by apply build_ctc_topo_ok|].
      eapply build_ctc_topo_sorted. by apply build_ctc_topo_ok.
    - destruct (build_ctc_topo2_ok (0 :: get_phone_symbols phones)
                  (get_phone_symbols phones) Hblank)
        as (rows & arcs' & _ & _ & _ & Hb & _).
      { done. }
      eexists. split; [done|]. by eapply build_ctc_topo2_sorted. }
  apply wp_bind.
  eapply wp_mono with (Φ := holds h (One T) false) (Ψ := never); [| |done].
  { destruct (decide (topo = "normal"%string));
      by apply wp_new_topology. }
  intros t h1 (Hh1 & Ht & Hv). simpl.
  apply wp_alloc. intros self Hself.
  assert (self ≠ t) as Hne by (intros ->; congruence).
  split_and!.
  - etrans; [done|]. by apply insert_subseteq.
  - unfold owned. by eapply lookup_weaken_None.
  - exists t, T. split_and!.
    + apply lookup_insert_eq.
    + split_and!; [|done|by rewrite lookup_insert_ne].
      etrans; [done|]. by apply insert_subseteq.
    + by destruct (decide (topo = "normal"%string)).
Qed.

End construction.

(** ** Construction, then compilation

    What [__init__] leaves behind is what the theorems about [compile]
    assume of the store. *)
Lemma init_establishes_compiler `{K2Laws}
    (get_phone_symbols : SymbolTable → list Z) (h : store) (L : loc)
    (lexicon : Fsa) (g : bool) (phone_table word_table : SymbolTable)
    (topo oov_symbol : string) :
  h !! L = Some (FsaObj (One lexicon) g) →
  contains word_table oov_symbol = true →
  ∃ self h' c T u,
    __init__ get_phone_symbols L phone_table word_table topo oov_symbol h
    = (Ok self, h')
    ∧ h' !! self = Some (CompilerObj c)
    ∧ h' !! L_inv c = Some (FsaObj (One lexicon) g)
    ∧ h' !! ctc_topo c = Some (FsaObj (One T) false)
    ∧ sym2id (words c) !! oov c = Some u.
Proof.
  intros HL Hoov.
  destruct (wp_run _ _ _
              (init_returns get_phone_symbols L _ g phone_table word_table
                 topo oov_symbol h HL Hoov))
    as (self & h' & Hinit & Hh' & _ & t & T & Hself & (_ & _ & Ht) & _).
  unfold contains in Hoov. apply bool_decide_eq_true in Hoov as [u Hu].
  exists self, h', (mkCompiler L phone_table word_table oov_symbol t), T, u.
  split_and!; [done|done| |done|done].
  simpl. by eapply lookup_weaken.
Qed.

(** ** Examples *)

Example build_ctc_topo_rows_two :
  build_ctc_topo_rows [0; 5]
  = Ok [[0; 0; 0; 0; 0]; [0; 1; 5; 5; 0]; [0; 2; -1; -1; 0];
        [1; 0; 0; 0; 0]; [1; 1; 5; 0; 0]; [1; 2; -1; -1; 0]; [2]].
Proof. reflexivity. Qed.

(** Only the first 0 is removed, and the lines are sorted on their first
    field with the final state last. *)
Example build_ctc_topo2_rows_two_blanks :
  build_ctc_topo2_rows [5; 0; 0]
  = Ok [[0; 0; 0; 0; 0]; [0; 3; -1; -1; 0]; [0; 0; 5; 5; 0]; [0; 1; 5; 5; 0];
        [0; 0; 0; 0; 0]; [0; 2; 0; 0; 0]; [1; 1; 5; 0; 0]; [1; 0; 5; 0; 0];
        [2; 2; 0; 0; 0]; [2; 0; 0; 0; 0]; [3]].
Proof. reflexivity. Qed.

Example build_ctc_topo_no_blank :
  @build_ctc_topo Reference.toolkit [3; 4] = Raise AssertionError.
Proof. reflexivity. Qed.

Example split_spaces :
  split " a  c " = [EmptyString; "a"; EmptyString; "c"; EmptyString]%string.
Proof. reflexivity. Qed.

Example compile_word_ids_oov :
  compile_word_ids Sample.compiler ["a XYZ c"; "c a"]%string
  = Ok [[2; 1; 3]; [3; 2]].
Proof. reflexivity. Qed.

(** With the reference toolkit, the acceptor compiled for the empty
    transcript is the one of the OOV word: it has an arc labeled with that
    word's phone, 1. *)
Example compile_empty_transcript_reads_oov :
  ∃ l h' g a,
    @compile Reference.toolkit 3%positive [EmptyString] Sample.h = (Ok l, h')
    ∧ h' !! l = Some (FsaObj (Vec [g]) false)
    ∧ a ∈ arcs g ∧ label a = 1 ∧ aux_label a = 1.
Proof.
  eexists _, _, _, (mkArc 0 2 1 1 0).
  split; [vm_compute; reflexivity|]. split; [vm_compute; reflexivity|].
  split; [|done]. set_solver.
Qed.

(** * The claims *)

(** C2.  For every token list of length n that contains 0, [build_ctc_topo]
    returns an acceptor with n+1 states (the final state is n) whose arcs are,
    up to their order, the n self-loops labeled (tokens[i], 0), the n·(n−1)
    arcs from i to j ≠ i labeled (tokens[j], tokens[j]) and the n arcs
    labeled (-1, -1) into the final state: n² + n arcs in total. *)
Theorem build_ctc_topo_shape `{K2Laws} (tokens : list Z) :
  0 ∈ tokens →
  ∃ f,
    build_ctc_topo tokens = Ok f
    ∧ num_states f = Z.of_nat (length tokens) + 1
    ∧ arcs f ≡ₚ topo_self_loops tokens ++ topo_cross_arcs tokens
                 ++ topo_final_arcs tokens
    ∧ length (topo_self_loops tokens) = length tokens
    ∧ length (topo_cross_arcs tokens)
      = (length tokens * (length tokens - 1))%nat
    ∧ length (topo_final_arcs tokens) = length tokens
    ∧ length (arcs f) = (length tokens * length tokens + length tokens)%nat.
Proof.
  intros Hzero. eexists. split; [by apply build_ctc_topo_ok|].
  assert (length (topo_self_loops tokens) = length tokens) as Hself.
  { unfold topo_self_loops. by rewrite length_fmap, length_seq. }
  assert (length (topo_final_arcs tokens) = length tokens) as Hfinal.
  { unfold topo_final_arcs. by rewrite length_fmap, length_seq. }
  pose proof (topo_cross_arcs_length tokens) as Hcross.
  assert (arcs (arc_sort (mkFsa (Z.of_nat (length tokens) + 1)
            (row_arc <$> (seq 0 (length tokens) ≫= topo_state_rows tokens))))
          ≡ₚ topo_self_loops tokens ++ topo_cross_arcs tokens
              ++ topo_final_arcs tokens) as Hperm.
  { rewrite arc_sort_perm. apply topo_arcs_perm. }
  split_and!; [by rewrite arc_sort_num_states|done|done|done|done|].
  rewrite Hperm, !length_app, Hself, Hcross, Hfinal.
  destruct (length tokens); lia.
Qed.

Lemma build_ctc_topo_shape_witness :
  0 ∈ [0; 5; 7]
  ∧ ∃ f, @build_ctc_topo Reference.toolkit [0; 5; 7] = Ok f
         ∧ num_states f = 4 ∧ length (arcs f) = 12%nat.
Proof.
  assert (0 ∈ [0; 5; 7]) as Hzero by left.
  split; [exact Hzero|].
  destruct (@build_ctc_topo_shape Reference.toolkit reference_laws
              [0; 5; 7] Hzero) as (f & Hf & Hn & _ & _ & _ & _ & Hlen).
  exists f. split; [exact Hf|]. split; [exact Hn | exact Hlen].
Defined.

(** C3.  For every phone list that contains 0, with n the number of phones
    that remain once [phones.remove(0)] has deleted it, [build_ctc_topo2]
    returns an acceptor with n+2 states and 4n+2 arcs, which are, up to their
    order, start→start (0, 0), start→final (-1, -1) and the four arcs of each
    phone; the lines handed to [from_str] are in the order of their source
    states. *)
Theorem build_ctc_topo2_shape `{K2Laws} (phones : list Z) :
  0 ∈ phones →
  ∃ ps rows g,
    list_remove 0 phones = Ok ps
    ∧ length phones = S (length ps)
    ∧ build_ctc_topo2_rows phones = Ok rows
    ∧ is_sorted Z.leb (first_field <$> rows) = true
    ∧ from_str rows = Ok g
    ∧ build_ctc_topo2 phones = Ok (arc_sort g)
    ∧ num_states (arc_sort g) = Z.of_nat (length ps) + 2
    ∧ length (arcs (arc_sort g)) = (4 * length ps + 2)%nat
    ∧ arcs (arc_sort g) ≡ₚ topo2_arcs ps.
Proof.
  intros Hzero.
  destruct (list_remove_ok 0 phones Hzero) as (ps & Hps & Hlen & _).
  destruct (build_ctc_topo2_ok phones ps Hzero Hps)
    as (rows & arcs' & Hrows & Hsorted & Hfrom & Hbuild & Hperm).
  exists ps, rows, (mkFsa (Z.of_nat (length ps) + 2) arcs').
  split_and!; try done.
  - by rewrite arc_sort_num_states.
  - rewrite arc_sort_perm. simpl. rewrite Hperm. unfold topo2_arcs.
    rewrite length_app, (length_bind_const _ _ 4).
    + unfold enumerate. rewrite length_zip_with, length_seq. simpl. lia.
    + by intros [i p] _.
  - by rewrite arc_sort_perm.
Qed.

Lemma build_ctc_topo2_shape_witness :
  0 ∈ [5; 0; 7]
  ∧ ∃ g, @build_ctc_topo2 Reference.toolkit [5; 0; 7]
         = Ok (Reference.arc_sort g)
         ∧ num_states (Reference.arc_sort g) = 4
         ∧ length (arcs (Reference.arc_sort g)) = 10%nat.
Proof.
  assert (0 ∈ [5; 0; 7]) as Hzero by (right; left).
  split; [exact Hzero|].
  destruct (@build_ctc_topo2_shape Reference.toolkit reference_laws
              [5; 0; 7] Hzero)
    as (ps & rows & g & Hps & _ & _ & _ & _ & Hg & Hn & Hlen & _).
  injection Hps as <-.
  exists g. split; [exact Hg|]. split; [exact Hn | exact Hlen].
Defined.

(** C8.  [build_ctc_topo] and [build_ctc_topo2] raise [AssertionError] for a
    token list without 0, and the constructor raises [AssertionError] when
    the OOV symbol is not in the word table; the constructor then returns no
    instance and leaves the store exactly as it found it. *)
Theorem construction_fails_fast `{K2}
    (get_phone_symbols : SymbolTable → list Z) :
  (∀ tokens, 0 ∉ tokens →
     build_ctc_topo tokens = Raise AssertionError
     ∧ build_ctc_topo2 tokens = Raise AssertionError)
  ∧ (∀ (h : store) L v g phones words topo oov,
       h !! L = Some (FsaObj v g) →
       contains words oov = false →
       __init__ get_phone_symbols L phones words topo oov h
       = (Raise AssertionError, h)).
Proof.
  split.
  - intros tokens Hzero.
    unfold build_ctc_topo, build_ctc_topo2, build_ctc_topo_rows,
      build_ctc_topo2_rows.
    by rewrite bool_decide_eq_false_2.
  - intros h L v g phones words topo oov HL Hoov.
    unfold __init__, mbind, M_bind, deref_fsa, k2_arc_sort, deref_fsa.
    rewrite HL. destruct (val_all is_arc_sorted v) eqn:Hv.
    + unfold mbind, M_bind, deref_fsa. rewrite HL, Hv. simpl.
      unfold lift. by rewrite Hoov.
    + simpl. unfold lift. by rewrite Hoov.
Qed.

Lemma construction_fails_fast_witness :
  ((0 ∉ [1; 2])
   ∧ @build_ctc_topo Reference.toolkit [1; 2] = Raise AssertionError
   ∧ @build_ctc_topo2 Reference.toolkit [1; 2] = Raise AssertionError)
  ∧ (Sample.h !! 1%positive
     = Some (FsaObj (One Sample.sorted_lexicon) false)
     ∧ contains Sample.words "<unk>" = false
     ∧ @__init__ Reference.toolkit Sample.get_phone_symbols 1%positive
         Sample.phones Sample.words "modified" "<unk>" Sample.h
       = (Raise AssertionError, Sample.h)).
Proof.
  assert (0 ∉ [1; 2]) as Hzero.
  { intros Hin. apply list_elem_of_In in Hin. simpl in Hin.
    destruct Hin as [Hin|[Hin|[]]]; discriminate Hin. }
  assert (Sample.h !! 1%positive
          = Some (FsaObj (One Sample.sorted_lexicon) false)) as HL
    by reflexivity.
  assert (contains Sample.words "<unk>" = false) as Hoov by reflexivity.
  destruct (@construction_fails_fast Reference.toolkit
              Sample.get_phone_symbols) as [Hbuild Hinit].
  split.
  - split; [exact Hzero | exact (Hbuild [1; 2] Hzero)].
  - split; [exact HL|]. split; [exact Hoov|].
    exact (Hinit Sample.h 1%positive _ _ Sample.phones Sample.words
             "modified"%string "<unk>"%string HL Hoov).
Defined.

(** C1.  The constructor tests [L_inv.properties & ARC_SORTED != 0] and
    arc-sorts the lexicon when the test holds, that is, when the lexicon is
    arc-sorted already.  A lexicon that is not arc-sorted is stored as it is:
    the instance refers to the very object it was given, whose content is
    unchanged and still not arc-sorted. *)
Theorem init_stores_unsorted_lexicon `{K2Laws}
    (get_phone_symbols : SymbolTable → list Z) (h : store) (L : loc)
    (v : FsaVal) (g : bool) (phones words : SymbolTable) (topo oov : string) :
  h !! L = Some (FsaObj v g) →
  contains words oov = true →
  val_all is_arc_sorted v = false →
  ∃ self h' c,
    __init__ get_phone_symbols L phones words topo oov h = (Ok self, h')
    ∧ h' !! self = Some (CompilerObj c)
    ∧ L_inv c = L
    ∧ h' !! L_inv c = Some (FsaObj v g)
    ∧ val_all is_arc_sorted v = false.
Proof.
  intros HL Hoov Hv.
  destruct (wp_run _ _ _
              (init_returns get_phone_symbols L v g phones words topo oov h
                 HL Hoov))
    as (self & h' & Hinit & Hh' & _ & t & T & Hself & _).
  exists self, h', (mkCompiler L phones words oov t).
  split_and!; [done|done|done| |done].
  simpl. by eapply lookup_weaken.
Qed.

Lemma init_stores_unsorted_lexicon_witness :
  Sample.h_unsorted !! 1%positive = Some (FsaObj (One Sample.lexicon) false)
  ∧ contains Sample.words "<UNK>" = true
  ∧ val_all (@is_arc_sorted Reference.toolkit) (One Sample.lexicon) = false
  ∧ ∃ self h' c,
      @__init__ Reference.toolkit Sample.get_phone_symbols 1%positive
        Sample.phones Sample.words "modified" "<UNK>" Sample.h_unsorted
      = (Ok self, h')
      ∧ h' !! self = Some (CompilerObj c)
      ∧ h' !! L_inv c = Some (FsaObj (One Sample.lexicon) false).
Proof.
  assert (Sample.h_unsorted !! 1%positive
          = Some (FsaObj (One Sample.lexicon) false)) as HL by reflexivity.
  assert (contains Sample.words "<UNK>" = true) as Hoov by reflexivity.
  assert (val_all (@is_arc_sorted Reference.toolkit) (One Sample.lexicon)
          = false) as Hv by reflexivity.
  split; [exact HL|]. split; [exact Hoov|]. split; [exact Hv|].
  destruct (@init_stores_unsorted_lexicon Reference.toolkit reference_laws
              Sample.get_phone_symbols Sample.h_unsorted 1%positive
              (One Sample.lexicon) false Sample.phones Sample.words
              "modified"%string "<UNK>"%string HL Hoov Hv)
    as (self & h' & c & Hinit & Hself & _ & Hlex & _).
  exists self, h', c. split; [exact Hinit|]. split; [exact Hself | exact Hlex].
Defined.

(** C9.  A call of [compile] leaves every object that existed before the
    call as it was, whether the call returns or raises: the compiler instance
    with its fields [L_inv], [ctc_topo], [phones], [words] and [oov], the
    lexicon that [L_inv] refers to and the cached topology that [ctc_topo]
    refers to. *)
Theorem compile_leaves_compiler_unchanged `{K2} (self : loc)
    (texts : list string) (h : store) (c : Compiler) (lexicon topology : Obj) :
  h !! self = Some (CompilerObj c) →
  h !! L_inv c = Some lexicon →
  h !! ctc_topo c = Some topology →
  h ⊆ (compile self texts h).2
  ∧ (compile self texts h).2 !! self = Some (CompilerObj c)
  ∧ (compile self texts h).2 !! L_inv c = Some lexicon
  ∧ (compile self texts h).2 !! ctc_topo c = Some topology.
Proof.
  intros Hself HL HT.
  pose proof (framed_compile h self texts h (reflexivity h)) as Hframe.
  unfold wp in Hframe.
  assert (h ⊆ (compile self texts h).2) as Hh'.
  { destruct (compile self texts h) as [[l|e] h']; simpl; [by destruct Hframe|done]. }
  split_and!; [done|by eapply lookup_weaken..].
Qed.

Lemma compile_leaves_compiler_unchanged_witness :
  Sample.h !! 3%positive = Some (CompilerObj Sample.compiler)
  ∧ Sample.h !! 1%positive = Some (FsaObj (One Sample.sorted_lexicon) false)
  ∧ Sample.h !! 2%positive = Some (FsaObj (One Sample.topology) false)
  ∧ (@compile Reference.toolkit 3%positive ["a c"%string] Sample.h).2
      !! 3%positive = Some (CompilerObj Sample.compiler)
  ∧ (@compile Reference.toolkit 3%positive ["a c"%string] Sample.h).2
      !! 2%positive = Some (FsaObj (One Sample.topology) false).
Proof.
  assert (Sample.h !! 3%positive = Some (CompilerObj Sample.compiler))
    as Hself by reflexivity.
  assert (Sample.h !! L_inv Sample.compiler
          = Some (FsaObj (One Sample.sorted_lexicon) false)) as HL
    by reflexivity.
  assert (Sample.h !! ctc_topo Sample.compiler
          = Some (FsaObj (One Sample.topology) false)) as HT by reflexivity.
  split; [exact Hself|]. split; [exact HL|]. split; [exact HT|].
  destruct (@compile_leaves_compiler_unchanged Reference.toolkit 3%positive
              ["a c"%string] Sample.h Sample.compiler _ _ Hself HL HT)
    as (_ & Hs & _ & Ht).
  split; [exact Hs | exact Ht].
Defined.

(** C5.  On a compiler whose lexicon and topology are single acceptors,
    [compile] returns, for every batch, a new FsaVec with one acceptor per
    transcript, in the order of the batch; the acceptor of a transcript is
    the result of: word ids, linear acceptor, intersection with the stored
    lexicon, connect, invert, arc-sort, composition with the cached topology
    as first argument, connect. *)
Theorem compile_applies_pipeline `{K2Laws} (h : store) (self : loc)
    (c : Compiler) (L T : Fsa) (gL gT : bool) (u : Z) (texts : list string) :
  h !! self = Some (CompilerObj c) →
  h !! L_inv c = Some (FsaObj (One L) gL) →
  h !! ctc_topo c = Some (FsaObj (One T) gT) →
  sym2id (words c) !! oov c = Some u →
  ∃ l h' graphs,
    compile self texts h = (Ok l, h')
    ∧ h !! l = None
    ∧ h' !! l = Some (FsaObj (Vec graphs) false)
    ∧ length graphs = length texts
    ∧ (∀ i text, texts !! i = Some text →
         graphs !! i
         = Some (utterance_graph L T (transcript_ids (words c) u text)))
    ∧ (∀ ids, utterance_graph L T ids
              = connect (compose T (arc_sort (invert (connect
                  (intersect (linear_fsa ids) L)))))).
Proof.
  intros Hself HL HT Hoov.
  destruct (wp_run _ _ _
              (compile_returns h self c L T gL gT u texts Hself HL HT Hoov))
    as (l & h' & Hrun & _ & Hown & Hl).
  exists l, h', (utterance_graph L T <$> (transcript_ids (words c) u <$> texts)).
  split_and!; [done|done|done| | |done].
  - by rewrite !length_fmap.
  - intros i text Hi. rewrite !list_lookup_fmap, Hi. done.
Qed.

Lemma compile_applies_pipeline_witness :
  Sample.h !! 3%positive = Some (CompilerObj Sample.compiler)
  ∧ Sample.h !! 1%positive = Some (FsaObj (One Sample.sorted_lexicon) false)
  ∧ Sample.h !! 2%positive = Some (FsaObj (One Sample.topology) false)
  ∧ sym2id Sample.words !! "<UNK>"%string = Some 1
  ∧ ∃ l h' graphs,
      @compile Reference.toolkit 3%positive ["a c"; "c"]%string Sample.h
      = (Ok l, h')
      ∧ h' !! l = Some (FsaObj (Vec graphs) false)
      ∧ length graphs = 2%nat.
Proof.
  assert (Sample.h !! 3%positive = Some (CompilerObj Sample.compiler))
    as Hself by reflexivity.
  assert (Sample.h !! L_inv Sample.compiler
          = Some (FsaObj (One Sample.sorted_lexicon) false)) as HL
    by reflexivity.
  assert (Sample.h !! ctc_topo Sample.compiler
          = Some (FsaObj (One Sample.topology) false)) as HT by reflexivity.
  assert (sym2id (words Sample.compiler) !! oov Sample.compiler = Some 1)
    as Hoov by reflexivity.
  split; [exact Hself|]. split; [exact HL|]. split; [exact HT|].
  split; [exact Hoov|].
  destruct (@compile_applies_pipeline Reference.toolkit reference_laws
              Sample.h 3%positive Sample.compiler _ _ _ _ 1
              ["a c"; "c"]%string Hself HL HT Hoov)
    as (l & h' & graphs & Hrun & _ & Hl & Hlen & _).
  exists l, h', graphs. split; [exact Hrun|]. split; [exact Hl | exact Hlen].
Defined.

(** ** Out-of-vocabulary words and empty tokens *)

Lemma transcript_ids_variant (table : SymbolTable) (oov : string) (u : Z)
    (t1 t2 : string) :
  sym2id table !! oov = Some u →
  Forall2 (oov_variant table oov) (split t1) (split t2) →
  transcript_ids table u t1 = transcript_ids table u t2.
Proof.
  intros Hoov Hvar. unfold transcript_ids.
  induction Hvar as [|w1 w2 ws1 ws2 Hw _ IH]; [done|].
  csimpl. f_equal; [|done].
  destruct Hw as [->|[Hw1 ->]]; [done|].
  unfold contains in Hw1. apply bool_decide_eq_false in Hw1.
  rewrite Hoov. destruct (sym2id table !! w1) eqn:Hlook; [|done].
  destruct Hw1; eauto.
Qed.

Lemma compile_ext `{K2} (self : loc) (c : Compiler) (h : store)
    (texts1 texts2 : list string) :
  h !! self = Some (CompilerObj c) →
  compile_word_ids c texts1 = compile_word_ids c texts2 →
  compile self texts1 h = compile self texts2 h.
Proof.
  intros Hself Hids. unfold compile.
  unfold mbind at 1 13, M_bind at 1 13, deref_compiler at 1 4.
  rewrite Hself.
  unfold mbind at 1 12, M_bind at 1 12, lift.
  by rewrite Hids.
Qed.

(** C6.  A word that is not in the word table gets the id of the OOV symbol
    and no exception is raised.  With [u] the id of the OOV symbol, the ids
    that [compile] computes for a batch are, word by word, the id that the
    table gives to the word, or [u] when the table has none; [compile]
    returns a vector with the graph built from exactly these ids for every
    transcript.  So two batches that differ only in that one has an absent
    word where the other has the OOV symbol get the same ids, and [compile]
    returns the same object in the same store for both. *)
Theorem oov_substitution_is_silent `{K2Laws} (h : store) (self : loc)
    (c : Compiler) (L T : Fsa) (gL gT : bool) (u : Z)
    (texts1 texts2 : list string) :
  h !! self = Some (CompilerObj c) →
  h !! L_inv c = Some (FsaObj (One L) gL) →
  h !! ctc_topo c = Some (FsaObj (One T) gT) →
  sym2id (words c) !! oov c = Some u →
  Forall2 (λ t1 t2,
      Forall2 (oov_variant (words c) (oov c)) (split t1) (split t2))
    texts1 texts2 →
  ∃ ids l h',
    compile_word_ids c texts1 = Ok ids
    ∧ compile_word_ids c texts2 = Ok ids
    ∧ Forall2 (λ text text_ids,
        Forall2 (λ word i,
            sym2id (words c) !! word = Some i
            ∨ (sym2id (words c) !! word = None ∧ i = u))
          (split text) text_ids) texts1 ids
    ∧ compile self texts1 h = (Ok l, h')
    ∧ compile self texts2 h = (Ok l, h')
    ∧ h' !! l = Some (FsaObj (Vec (utterance_graph L T <$> ids)) false).
Proof.
  intros Hself HL HT Hoov Hvar.
  assert (transcript_ids (words c) u <$> texts1
          = transcript_ids (words c) u <$> texts2) as Hids.
  { induction Hvar as [|t1 t2 ts1 ts2 Ht _ IH]; [done|].
    csimpl. f_equal; [by eapply transcript_ids_variant | done]. }
  destruct (wp_run _ _ _
              (compile_returns h self c L T gL gT u texts1 Hself HL HT Hoov))
    as (l & h' & Hrun & _ & _ & Hres).
  exists (transcript_ids (words c) u <$> texts1), l, h'.
  split_and!.
  - by apply compile_word_ids_ok.
  - rewrite Hids. by apply compile_word_ids_ok.
  - apply Forall2_fmap_r, Forall_Forall2_diag, Forall_forall.
    intros text _. unfold transcript_ids.
    apply Forall2_fmap_r, Forall_Forall2_diag, Forall_forall.
    intros word _. simpl.
    destruct (sym2id (words c) !! word) as [i|]; simpl; [by left|by right].
  - done.
  - rewrite <- Hrun. symmetry. apply (compile_ext self c); [done|].
    rewrite !(compile_word_ids_ok c u) by done. by rewrite Hids.
  - done.
Qed.

Lemma oov_substitution_is_silent_witness :
  Sample.h !! 3%positive = Some (CompilerObj Sample.compiler)
  ∧ Sample.h !! 1%positive = Some (FsaObj (One Sample.sorted_lexicon) false)
  ∧ Sample.h !! 2%positive = Some (FsaObj (One Sample.topology) false)
  ∧ sym2id Sample.words !! "<UNK>"%string = Some 1
  ∧ contains Sample.words "XYZ" = false
  ∧ ∃ l h',
      compile_word_ids Sample.compiler ["a XYZ c"%string] = Ok [[2; 1; 3]]
      ∧ compile_word_ids Sample.compiler ["a <UNK> c"%string]
        = Ok [[2; 1; 3]]
      ∧ @compile Reference.toolkit 3%positive ["a XYZ c"%string] Sample.h
        = (Ok l, h')
      ∧ @compile Reference.toolkit 3%positive ["a <UNK> c"%string] Sample.h
        = (Ok l, h')
      ∧ h' !! l
        = Some (FsaObj
                  (Vec [@utterance_graph Reference.toolkit
                          Sample.sorted_lexicon Sample.topology [2; 1; 3]])
                  false).
Proof.
  assert (Sample.h !! 3%positive = Some (CompilerObj Sample.compiler))
    as Hself by reflexivity.
  assert (Sample.h !! L_inv Sample.compiler
          = Some (FsaObj (One Sample.sorted_lexicon) false)) as HL
    by reflexivity.
  assert (Sample.h !! ctc_topo Sample.compiler
          = Some (FsaObj (One Sample.topology) false)) as HT by reflexivity.
  assert (sym2id (words Sample.compiler) !! oov Sample.compiler = Some 1)
    as Hoov by reflexivity.
  assert (contains Sample.words "XYZ" = false) as Habsent by reflexivity.
  assert (Forall2 (λ t1 t2,
              Forall2 (oov_variant (words Sample.compiler)
                         (oov Sample.compiler)) (split t1) (split t2))
            ["a XYZ c"%string] ["a <UNK> c"%string]) as Hvar.
  { constructor; [|constructor].
    constructor; [by left|].
    constructor; [right; split; [exact Habsent | reflexivity]|].
    constructor; [by left|constructor]. }
  split; [exact Hself|]. split; [exact HL|]. split; [exact HT|].
  split; [exact Hoov|]. split; [exact Habsent|].
  destruct (@oov_substitution_is_silent Reference.toolkit reference_laws
              Sample.h 3%positive Sample.compiler _ _ _ _ 1
              ["a XYZ c"%string] ["a <UNK> c"%string] Hself HL HT Hoov Hvar)
    as (ids & l & h' & Hids1 & Hids2 & _ & Hrun1 & Hrun2 & Hres).
  exists l, h'.
  assert (ids = [[2; 1; 3]]) as ->.
  { assert (compile_word_ids Sample.compiler ["a XYZ c"%string]
            = Ok [[2; 1; 3]]) as Hc by reflexivity.
    rewrite Hc in Hids1. by injection Hids1 as <-. }
  split; [exact Hids1|]. split; [exact Hids2|].
  split; [exact Hrun1|]. split; [exact Hrun2 | exact Hres].
Defined.

(** C10.  [text.split(' ')] cuts at every single space, so that a leading, a
    trailing or a doubled space gives an empty token; when the empty string
    is not in the word table, every empty token gets the id of the OOV
    symbol, and the empty transcript gets the one-element list of that id. *)
Theorem empty_tokens_map_to_oov (self : Compiler) (u : Z) :
  sym2id (words self) !! oov self = Some u →
  sym2id (words self) !! EmptyString = None →
  (∀ s, split (" " +:+ s) = EmptyString :: split s)
  ∧ (∀ s, split (s +:+ " ") = split s ++ [EmptyString])
  ∧ (∀ s1 s2, split (s1 +:+ "  " +:+ s2) = split s1 ++ EmptyString :: split s2)
  ∧ (∀ texts, ∃ word_ids,
       compile_word_ids self texts = Ok word_ids
       ∧ ∀ k text i,
           texts !! k = Some text →
           split text !! i = Some EmptyString →
           ∃ word_id, word_ids !! k = Some word_id ∧ word_id !! i = Some u)
  ∧ compile_word_ids self [EmptyString] = Ok [[u]].
Proof.
  intros Hoov Hempty. split_and!.
  - apply split_leading.
  - apply split_trailing.
  - apply split_consecutive.
  - intros texts. eexists. split; [by apply compile_word_ids_ok|].
    intros k text i Hk Hi. exists (transcript_ids (words self) u text).
    split; [by rewrite list_lookup_fmap, Hk|].
    unfold transcript_ids. rewrite list_lookup_fmap, Hi. simpl.
    by rewrite Hempty.
  - rewrite (compile_word_ids_ok self u) by done.
    unfold transcript_ids. simpl. by rewrite Hempty.
Qed.

Lemma empty_tokens_map_to_oov_witness :
  sym2id (words Sample.compiler) !! oov Sample.compiler = Some 1
  ∧ sym2id (words Sample.compiler) !! EmptyString = None
  ∧ split " a  c " = [EmptyString; "a"; EmptyString; "c"; EmptyString]%string
  ∧ compile_word_ids Sample.compiler [EmptyString] = Ok [[1]].
Proof.
  assert (sym2id (words Sample.compiler) !! oov Sample.compiler = Some 1)
    as Hoov by reflexivity.
  assert (sym2id (words Sample.compiler) !! EmptyString = None)
    as Hempty by reflexivity.
  split; [exact Hoov|]. split; [exact Hempty|]. split; [reflexivity|].
  destruct (empty_tokens_map_to_oov Sample.compiler 1 Hoov Hempty)
    as (_ & _ & _ & _ & Hids).
  exact Hids.
Defined.

(** C4, as stated, fails: the empty transcript is not mapped to a list of
    no word ids. *)
Lemma empty_transcript_is_not_zero_words :
  compile_word_ids Sample.compiler [EmptyString] ≠ Ok [[]].
Proof. discriminate. Qed.

(** C4, amended.  [compile([EmptyString])] does not raise; when the empty string is
    not in the word table, the transcript is mapped to the one-element list
    of the OOV id, and the result is the FsaVec whose only acceptor is the
    pipeline's acceptor for that one word. *)
Theorem compile_empty_transcript `{K2Laws} (h : store) (self : loc)
    (c : Compiler) (L T : Fsa) (gL gT : bool) (u : Z) :
  h !! self = Some (CompilerObj c) →
  h !! L_inv c = Some (FsaObj (One L) gL) →
  h !! ctc_topo c = Some (FsaObj (One T) gT) →
  sym2id (words c) !! oov c = Some u →
  sym2id (words c) !! EmptyString = None →
  compile_word_ids c [EmptyString] = Ok [[u]]
  ∧ ∃ l h',
      compile self [EmptyString] h = (Ok l, h')
      ∧ h' !! l = Some (FsaObj (Vec [utterance_graph L T [u]]) false).
Proof.
  intros Hself HL HT Hoov Hempty.
  assert (transcript_ids (words c) u EmptyString = [u]) as Hids.
  { unfold transcript_ids. simpl. by rewrite Hempty. }
  split.
  - rewrite (compile_word_ids_ok c u) by done. simpl. by rewrite Hids.
  - destruct (wp_run _ _ _
                (compile_returns h self c L T gL gT u [EmptyString]
                   Hself HL HT Hoov))
      as (l & h' & Hrun & _ & _ & Hl).
    exists l, h'. split; [done|]. simpl in Hl. by rewrite Hids in Hl.
Qed.

Lemma compile_empty_transcript_witness :
  Sample.h !! 3%positive = Some (CompilerObj Sample.compiler)
  ∧ Sample.h !! 1%positive = Some (FsaObj (One Sample.sorted_lexicon) false)
  ∧ Sample.h !! 2%positive = Some (FsaObj (One Sample.topology) false)
  ∧ sym2id Sample.words !! "<UNK>"%string = Some 1
  ∧ sym2id Sample.words !! EmptyString = None
  ∧ compile_word_ids Sample.compiler [EmptyString] = Ok [[1]]
  ∧ ∃ l h',
      @compile Reference.toolkit 3%positive [EmptyString] Sample.h = (Ok l, h')
      ∧ h' !! l
        = Some (FsaObj
                  (Vec [@utterance_graph Reference.toolkit
                          Sample.sorted_lexicon Sample.topology [1]])
                  false).
Proof.
  assert (Sample.h !! 3%positive = Some (CompilerObj Sample.compiler))
    as Hself by reflexivity.
  assert (Sample.h !! L_inv Sample.compiler
          = Some (FsaObj (One Sample.sorted_lexicon) false)) as HL
    by reflexivity.
  assert (Sample.h !! ctc_topo Sample.compiler
          = Some (FsaObj (One Sample.topology) false)) as HT by reflexivity.
  assert (sym2id (words Sample.compiler) !! oov Sample.compiler = Some 1)
    as Hoov by reflexivity.
  assert (sym2id (words Sample.compiler) !! EmptyString = None)
    as Hempty by reflexivity.
  split; [exact Hself|]. split; [exact HL|]. split; [exact HT|].
  split; [exact Hoov|]. split; [exact Hempty|].
  exact (@compile_empty_transcript Reference.toolkit reference_laws
           Sample.h 3%positive Sample.compiler _ _ _ _ 1
           Hself HL HT Hoov Hempty).
Defined.

(** ** Arcs labeled -1 *)

Lemma filter_none {A} (P : A → Prop) `{∀ x, Decision (P x)} (l : list A) :
  (∀ x, x ∈ l → ¬ P x) → filter P l = [].
Proof.
  induction l as [|x l IH]; intros Hl; [done|].
  rewrite filter_cons_False by (apply Hl; left).
  apply IH. intros; apply Hl; by right.
Qed.

Lemma elem_of_topo_self_loops tokens a :
  a ∈ topo_self_loops tokens →
  ∃ i : nat, (i < length tokens)%nat
             ∧ a = mkArc (Z.of_nat i) (Z.of_nat i) (tokens !!! i) 0 0.
Proof.
  unfold topo_self_loops. intros (i & -> & Hi%elem_of_seq)%list_elem_of_fmap.
  exists i. split; [lia|done].
Qed.

Lemma elem_of_topo_cross_arcs tokens a :
  a ∈ topo_cross_arcs tokens →
  ∃ i j : nat, (i < length tokens)%nat ∧ (j < length tokens)%nat
               ∧ a = mkArc (Z.of_nat i) (Z.of_nat j)
                       (tokens !!! j) (tokens !!! j) 0.
Proof.
  unfold topo_cross_arcs.
  intros (i & Ha & Hi%elem_of_seq)%list_elem_of_bind.
  apply list_elem_of_bind in Ha as (j & Ha & Hj%elem_of_seq).
  destruct (decide (i ≠ j)); [|by apply elem_of_nil in Ha].
  apply list_elem_of_singleton in Ha as ->.
  exists i, j. split_and!; [lia|lia|done].
Qed.

Lemma elem_of_topo_final_arcs tokens a :
  a ∈ topo_final_arcs tokens ↔
  ∃ i : nat, (i < length tokens)%nat
             ∧ a = mkArc (Z.of_nat i) (Z.of_nat (length tokens)) (-1) (-1) 0.
Proof.
  unfold topo_final_arcs. rewrite list_elem_of_fmap.
  split; intros (i & Ha & Hi); exists i; split; try done;
    [apply elem_of_seq in Hi; lia | apply elem_of_seq; lia].
Qed.

Lemma topo_arcs_well_labeled (tokens : list Z) (a : Arc) :
  (-1) ∉ tokens →
  a ∈ topo_self_loops tokens ++ topo_cross_arcs tokens
        ++ topo_final_arcs tokens →
  well_labeled (Z.of_nat (length tokens)) a.
Proof.
  intros Hm1. rewrite !elem_of_app. intros [Ha|[Ha|Ha]].
  - apply elem_of_topo_self_loops in Ha as (i & Hi & ->).
    assert (tokens !!! i ≠ -1) as Hl.
    { intros Heq. apply Hm1. rewrite <- Heq.
      by apply list_elem_of_lookup_total_2. }
    unfold well_labeled; simpl. split; [lia|]. split; [done|lia].
  - apply elem_of_topo_cross_arcs in Ha as (i & j & Hi & Hj & ->).
    assert (tokens !!! j ≠ -1) as Hl.
    { intros Heq. apply Hm1. rewrite <- Heq.
      by apply list_elem_of_lookup_total_2. }
    unfold well_labeled; simpl. split; [lia|]. split; [done|lia].
  - apply elem_of_topo_final_arcs in Ha as (i & Hi & ->).
    unfold well_labeled; simpl. split; [lia|done].
Qed.

Lemma topo_final_arcs_exits (N s : Z) (start len : nat) :
  length (filter (λ a, src_state a = s ∧ label a = -1)
            ((λ i : nat, mkArc (Z.of_nat i) N (-1) (-1) 0) <$> seq start len))
  = if decide (Z.of_nat start ≤ s < Z.of_nat (start + len)) then 1%nat else 0%nat.
Proof.
  revert start. induction len as [|len IH]; intros start.
  - rewrite decide_False by lia. done.
  - cbn [seq]. rewrite fmap_cons, filter_cons.
    destruct (decide (_ ∧ _)) as [[Hs _]|Hn]; cbn [length]; rewrite IH;
      cbn [src_state label] in *; repeat case_decide; lia.
Qed.

Lemma elem_of_topo2_phone_arcs (phones : list Z) a :
  a ∈ enumerate phones ≫= topo2_phone_arcs →
  ∃ (i : nat) (p : Z),
    (i < length phones)%nat ∧ p ∈ phones
    ∧ (a = mkArc 0 0 p p 0 ∨ a = mkArc 0 (Z.of_nat i + 1) p p 0
       ∨ a = mkArc (Z.of_nat i + 1) (Z.of_nat i + 1) p 0 0
       ∨ a = mkArc (Z.of_nat i + 1) 0 p 0 0).
Proof.
  intros ([i p] & Ha & [Hi Hp]%elem_of_enumerate)%list_elem_of_bind.
  assert (p ∈ phones) by (by eapply list_elem_of_lookup_2).
  exists i, p. split_and!; [done|done|].
  unfold topo2_phone_arcs in Ha. simpl in Ha. set_unfold in Ha. tauto.
Qed.

Lemma topo2_arcs_well_labeled (phones : list Z) (a : Arc) :
  (-1) ∉ phones →
  a ∈ topo2_arcs phones →
  well_labeled (Z.of_nat (length phones) + 1) a.
Proof.
  intros Hm1. unfold topo2_arcs. rewrite elem_of_app. intros [Ha|Ha].
  - set_unfold in Ha.
    destruct Ha as [-> | [-> | []]]; unfold well_labeled; simpl;
      (split; [lia|]); split; (done || lia).
  - apply elem_of_topo2_phone_arcs in Ha as (i & p & Hi & Hp & Ha).
    assert (p ≠ -1) as Hl by (by intros ->).
    destruct Ha as [-> | [-> | [-> | ->]]]; unfold well_labeled; simpl;
      (split; [lia|]); split; (done || lia).
Qed.

Lemma topo2_leave_arc (phones : list Z) (i : nat) :
  (i < length phones)%nat →
  mkArc (Z.of_nat i + 1) 0 (phones !!! i) 0 0
  ∈ enumerate phones ≫= topo2_phone_arcs.
Proof.
  intros Hi. apply list_elem_of_bind. exists (i, phones !!! i). split.
  - unfold topo2_phone_arcs. simpl. set_solver.
  - unfold enumerate. apply list_elem_of_lookup. exists i.
    apply lookup_zip_with_Some. exists i, (phones !!! i).
    split_and!; [done| |by apply list_lookup_lookup_total_lt].
    by apply lookup_seq.
Qed.

(** When every arc is well labeled, the arcs labeled -1 are the last arcs
    of the paths to the final state. *)
Lemma well_labeled_paths (f : Fsa) :
  (∀ a, a ∈ arcs f → well_labeled (final_state f) a) →
  minus_one_only_into_final f ∧ one_minus_one_per_path f.
Proof.
  intros Hwl. split.
  - intros a Ha Hl. by apply (Hwl a Ha).
  - assert (∀ s t p, path f s t p → t = final_state f → s ≠ final_state f →
                     minus_one_count p = 1%nat) as Hgen.
    { intros s t p Hp.
      induction Hp as [s|a t p Ha Hp IH]; intros Ht Hs; [congruence|].
      destruct (Hwl a Ha) as [_ Hlabel]. unfold minus_one_count in *.
      rewrite filter_cons. destruct (decide (label a = -1)) as [Hl|Hl].
      - apply Hlabel in Hl. inversion Hp as [s'|b t' p' Hb Hp' Hsrc]; [done|].
        destruct (Hwl b Hb) as [Hleave _]. congruence.
      - apply IH; [done|]. intros Hd. by apply Hl, Hlabel. }
    intros s p Hs Hp. by eapply Hgen.
Qed.

Section exits.
Context `{K2Laws}.

Lemma topo_exits (tokens : list Z) (f : Fsa) :
  (-1) ∉ tokens →
  num_states f = Z.of_nat (length tokens) + 1 →
  arcs f ≡ₚ topo_self_loops tokens ++ topo_cross_arcs tokens
             ++ topo_final_arcs tokens →
  (minus_one_only_into_final f ∧ one_minus_one_per_path f)
  ∧ one_exit_per_state f
  ∧ ∀ s, 0 ≤ s < final_state f → exit_reachable f s.
Proof.
  intros Hm1 Hn Hperm.
  assert (final_state f = Z.of_nat (length tokens)) as Hfinal
    by (unfold final_state; lia).
  assert (∀ a, a ∈ arcs f → well_labeled (final_state f) a) as Hwl.
  { intros a Ha. rewrite Hfinal. apply topo_arcs_well_labeled; [done|].
    by rewrite <- Hperm. }
  split; [by apply well_labeled_paths|]. split.
  - intros s Hs. unfold exits. rewrite Hperm, !filter_app, !length_app.
    rewrite (filter_none _ (topo_self_loops tokens)).
    2: { intros a Ha [_ Hl].
         assert (a ∈ arcs f) as Hin
           by (rewrite Hperm, !elem_of_app; by left).
         destruct (Hwl a Hin) as [_ Hlabel]. apply Hlabel in Hl.
         apply elem_of_topo_self_loops in Ha as (i & Hi & ->).
         simpl in Hl. lia. }
    rewrite (filter_none _ (topo_cross_arcs tokens)).
    2: { intros a Ha [_ Hl].
         assert (a ∈ arcs f) as Hin
           by (rewrite Hperm, !elem_of_app; right; by left).
         destruct (Hwl a Hin) as [_ Hlabel]. apply Hlabel in Hl.
         apply elem_of_topo_cross_arcs in Ha as (i & j & Hi & Hj & ->).
         simpl in Hl. lia. }
    unfold topo_final_arcs. rewrite topo_final_arcs_exits.
    rewrite decide_True by lia. done.
  - intros s Hs.
    exists (mkArc s (Z.of_nat (length tokens)) (-1) (-1) 0).
    split_and!; [|done|by rewrite Hfinal|apply reaches_refl].
    rewrite Hperm, !elem_of_app. right; right.
    apply elem_of_topo_final_arcs. exists (Z.to_nat s).
    split; [lia|]. f_equal. lia.
Qed.

Lemma topo2_exits (phones : list Z) (f : Fsa) :
  (-1) ∉ phones →
  num_states f = Z.of_nat (length phones) + 2 →
  arcs f ≡ₚ topo2_arcs phones →
  (minus_one_only_into_final f ∧ one_minus_one_per_path f)
  ∧ (∀ s, 0 ≤ s < final_state f →
       length (exits f s) = if decide (s = 0) then 1%nat else 0%nat)
  ∧ ∀ s, 0 ≤ s < final_state f → exit_reachable f s.
Proof.
  intros Hm1 Hn Hperm.
  assert (final_state f = Z.of_nat (length phones) + 1) as Hfinal
    by (unfold final_state; lia).
  assert (mkArc 0 (Z.of_nat (length phones) + 1) (-1) (-1) 0 ∈ arcs f)
    as Hexit.
  { rewrite Hperm. unfold topo2_arcs. apply elem_of_app. left. right. left. }
  assert (∀ a, a ∈ arcs f → well_labeled (final_state f) a) as Hwl.
  { intros a Ha. rewrite Hfinal. apply topo2_arcs_well_labeled; [done|].
    by rewrite <- Hperm. }
  split; [by apply well_labeled_paths|]. split.
  - intros s Hs. unfold exits. rewrite Hperm. unfold topo2_arcs.
    rewrite filter_app, length_app.
    rewrite (filter_none _ (enumerate phones ≫= topo2_phone_arcs)).
    2: { intros a Ha [_ Hl].
         apply elem_of_topo2_phone_arcs in Ha as (i & p & Hi & Hp & Ha).
         assert (p ≠ -1) as Hp1 by (by intros ->).
         destruct Ha as [-> | [-> | [-> | ->]]]; done. }
    rewrite !filter_cons, filter_nil. simpl.
    repeat case_decide; simpl; try done; lia.
  - intros s Hs.
    exists (mkArc 0 (Z.of_nat (length phones) + 1) (-1) (-1) 0).
    split_and!; [done|done|by rewrite Hfinal|]. simpl.
    destruct (decide (s = 0)) as [->|Hs0]; [apply reaches_refl|].
    assert (mkArc s 0 (phones !!! Z.to_nat (s - 1)) 0 0 ∈ arcs f) as Hleave.
    { rewrite Hperm. unfold topo2_arcs. apply elem_of_app. right.
      replace s with (Z.of_nat (Z.to_nat (s - 1)) + 1) at 1 by lia.
      apply topo2_leave_arc. lia. }
    exact (reaches_step f _ 0 Hleave (reaches_refl f 0)).
Qed.

End exits.

(** C7.  For a token list that contains 0 and in which -1, the label kept
    for the arcs into the final state, is not a token: in both topologies
    every arc labeled -1 ends in the final state, from every other state
    the final state is reached along a path whose last arc is labeled -1,
    and every path from another state to the final state has exactly one
    arc labeled -1.  In the quadratic topology every state but the final
    one has exactly one arc labeled -1 of its own; in the linear topology
    the start state has exactly one and the other states have none. *)
Theorem minus_one_arcs `{K2Laws} (tokens : list Z) :
  0 ∈ tokens →
  (-1) ∉ tokens →
  ∃ f1 f2,
    build_ctc_topo tokens = Ok f1
    ∧ build_ctc_topo2 tokens = Ok f2
    ∧ minus_one_only_into_final f1
    ∧ minus_one_only_into_final f2
    ∧ one_minus_one_per_path f1
    ∧ one_minus_one_per_path f2
    ∧ (∀ s, 0 ≤ s < final_state f1 → exit_reachable f1 s)
    ∧ (∀ s, 0 ≤ s < final_state f2 → exit_reachable f2 s)
    ∧ one_exit_per_state f1
    ∧ (∀ s, 0 ≤ s < final_state f2 →
         length (exits f2 s) = if decide (s = 0) then 1%nat else 0%nat).
Proof.
  intros Hzero Hm1.
  destruct (list_remove_ok 0 tokens Hzero) as (ps & Hps & _ & Hsub).
  destruct (build_ctc_topo2_ok tokens ps Hzero Hps)
    as (rows & arcs' & _ & _ & _ & Hf2 & Hperm2).
  assert ((-1) ∉ ps) as Hm1'.
  { intros Hin. apply Hm1. rewrite Hsub. by right. }
  pose proof (build_ctc_topo_ok tokens Hzero) as Hf1.
  destruct (topo_exits tokens _ Hm1
              (arc_sort_num_states (mkFsa _ _))
              (transitivity (arc_sort_perm (mkFsa _ _)) (topo_arcs_perm tokens)))
    as ([Ha1 Hp1] & Hb1 & Hc1).
  destruct (topo2_exits ps _ Hm1'
              (arc_sort_num_states (mkFsa _ _))
              (transitivity (arc_sort_perm (mkFsa _ _)) Hperm2))
    as ([Ha2 Hp2] & Hb2 & Hc2).
  eexists _, _. split; [exact Hf1|].
  split; [exact Hf2|]. split_and!; done.
Qed.

Lemma minus_one_arcs_witness :
  0 ∈ [0; 5; 7]
  ∧ ((-1) ∉ [0; 5; 7])
  ∧ ∃ f1 f2,
      @build_ctc_topo Reference.toolkit [0; 5; 7] = Ok f1
      ∧ @build_ctc_topo2 Reference.toolkit [0; 5; 7] = Ok f2
      ∧ minus_one_only_into_final f1
      ∧ minus_one_only_into_final f2.
Proof.
  assert (0 ∈ [0; 5; 7]) as Hzero by left.
  assert ((-1) ∉ [0; 5; 7]) as Hm1.
  { intros Hin. apply list_elem_of_In in Hin. simpl in Hin.
    destruct Hin as [Hin|[Hin|[Hin|[]]]]; discriminate Hin. }
  split; [exact Hzero|]. split; [exact Hm1|].
  destruct (@minus_one_arcs Reference.toolkit reference_laws [0; 5; 7]
              Hzero Hm1) as (f1 & f2 & Hf1 & Hf2 & Ha1 & Ha2 & _).
  exists f1, f2. split; [exact Hf1|]. split; [exact Hf2|].
  split; [exact Ha1 | exact Ha2].
Defined.

(** * Beyond the claims *)

(** ** The lines of the linear topology, in their order *)

Lemma insert_sorted_front {A} (le : A → A → bool) (x : A) (l : list A) :
  Forall (λ y, le x y = true) l → insert_sorted le x l = x :: l.
Proof. destruct 1 as [|y l Hy _]; [done|]. simpl. by rewrite Hy. Qed.

Lemma insert_sorted_skip {A} (le : A → A → bool) (x : A) (l1 l2 : list A) :
  Forall (λ y, le x y = false) l1 →
  insert_sorted le x (l1 ++ l2) = l1 ++ insert_sorted le x l2.
Proof.
  induction 1 as [|y l1 Hy _ IH]; [done|]. simpl. by rewrite Hy, IH.
Qed.

Lemma enumerate_from_cons {A} (k : nat) (x : A) (l : list A) :
  enumerate_from k (x :: l) = (k, x) :: enumerate_from (S k) l.
Proof. done. Qed.

Lemma elem_of_enumerate_from {A} (k : nat) (l : list A) (i : nat) (x : A) :
  (i, x) ∈ enumerate_from k l → (k ≤ i < k + length l)%nat.
Proof.
  unfold enumerate_from. intros Hin.
  apply list_elem_of_lookup in Hin as [j Hj].
  apply lookup_zip_with_Some in Hj as (i' & x' & [= <- <-] & Hi & Hx).
  apply lookup_seq in Hi as [-> Hlt]. lia.
Qed.

Lemma sorted_by_first_keyed (rows : list (list Z)) :
  Forall (λ row, row ≠ []) rows →
  sorted_by_first rows = Ok ((stable_sort key_le (keyed <$> rows)).*2).
Proof.
  intros Hne. unfold sorted_by_first.
  rewrite (comprehension_fmap _ first_field).
  2: { intros row Hin. rewrite Forall_forall in Hne.
       specialize (Hne row Hin). by destruct row. }
  rewrite bind_Ok. do 3 f_equal.
  clear. induction rows as [|r rows IH]; [done|]. csimpl. by f_equal.
Qed.

Lemma key_le_keyed (k : Z) (rest : list Z) (y : Z * list Z) :
  key_le (keyed (k :: rest)) y = (k <=? y.1).
Proof. done. Qed.

Lemma keyed_snd (rows : list (list Z)) : (keyed <$> rows).*2 = rows.
Proof. induction rows as [|r rows IH]; [done|]. csimpl. by f_equal. Qed.

Ltac solve_key_le :=
  rewrite ?key_le_keyed; first [apply Z.leb_le | apply Z.leb_gt];
  unfold keyed, first_field; simpl in *; lia.

(** Sorting the lines of the phones from position [k] on. *)
Lemma stable_sort_phone_rows (k : nat) (phones : list Z) :
  stable_sort key_le (keyed <$> (enumerate_from k phones ≫= topo2_phone_rows))
  = keyed <$> ((enumerate_from k phones ≫= topo2_start_rows)
               ++ (enumerate_from k phones ≫= topo2_state_rows)).
Proof.
  revert k. induction phones as [|p phones IH]; intros k; [done|].
  rewrite enumerate_from_cons. csimpl.
  change (stable_sort key_le (?a :: ?b :: ?c :: ?d :: ?l))
    with (insert_sorted key_le a (insert_sorted key_le b
            (insert_sorted key_le c (insert_sorted key_le d
               (stable_sort key_le l))))).
  rewrite IH, fmap_app.
  set (starts := enumerate_from (S k) phones ≫= topo2_start_rows).
  set (states := enumerate_from (S k) phones ≫= topo2_state_rows).
  assert (Forall (λ y : Z * list Z, y.1 = 0) (keyed <$> starts)) as Hstarts.
  { apply Forall_fmap, Forall_forall. intros row Hrow.
    apply list_elem_of_bind in Hrow as ([i q] & Hrow & _).
    unfold topo2_start_rows in Hrow. simpl in Hrow. set_unfold in Hrow.
    by destruct Hrow as [-> | [-> | []]]. }
  assert (Forall (λ y : Z * list Z, Z.of_nat k + 2 ≤ y.1) (keyed <$> states))
    as Hstates.
  { apply Forall_fmap, Forall_forall. intros row Hrow.
    apply list_elem_of_bind in Hrow as ([i q] & Hrow & Hi).
    apply elem_of_enumerate_from in Hi.
    unfold topo2_state_rows in Hrow. simpl in Hrow. set_unfold in Hrow.
    destruct Hrow as [-> | [-> | []]]; unfold keyed, first_field; simpl; lia. }
  rewrite (insert_sorted_skip key_le _ (keyed <$> starts)).
  2: { eapply Forall_impl; [exact Hstarts|]. intros y Hy.
       solve_key_le. }
  rewrite (insert_sorted_front key_le _ (keyed <$> states)).
  2: { eapply Forall_impl; [exact Hstates|]. intros y Hy.
       solve_key_le. }
  rewrite (insert_sorted_skip key_le _ (keyed <$> starts)).
  2: { eapply Forall_impl; [exact Hstarts|]. intros y Hy.
       solve_key_le. }
  rewrite (insert_sorted_front key_le (keyed [Z.of_nat k + 1; _; _; _; _])).
  2: { constructor; [solve_key_le|].
       eapply Forall_impl; [exact Hstates|]. intros y Hy.
       solve_key_le. }
  assert (Forall (λ y : Z * list Z, 0 ≤ y.1)
            ((keyed <$> starts)
             ++ keyed [Z.of_nat k + 1; Z.of_nat k + 1; p; 0; 0]
                :: keyed [Z.of_nat k + 1; 0; p; 0; 0] :: (keyed <$> states)))
    as Hall.
  { apply Forall_app. split.
    - eapply Forall_impl; [exact Hstarts|]. intros y Hy; simpl in *; lia.
    - constructor; [unfold keyed, first_field; simpl; lia|]. constructor; [unfold keyed, first_field; simpl; lia|].
      eapply Forall_impl; [exact Hstates|]. intros y Hy; simpl in *; lia. }
  rewrite (insert_sorted_front key_le (keyed [0; Z.of_nat k + 1; _; _; _])).
  2: { eapply Forall_impl; [exact Hall|]. intros y Hy. solve_key_le. }
  rewrite (insert_sorted_front key_le (keyed [0; 0; _; _; _])).
  2: { constructor; [solve_key_le|].
       eapply Forall_impl; [exact Hall|]. intros y Hy. solve_key_le. }
  by rewrite fmap_app.
Qed.

Lemma list_remove_first (x : Z) (l1 l2 : list Z) :
  x ∉ l1 → list_remove x (l1 ++ x :: l2) = Ok (l1 ++ l2).
Proof.
  induction l1 as [|y l1 IH]; intros Hx; simpl.
  - by rewrite decide_True.
  - apply not_elem_of_cons in Hx as [Hxy Hx].
    rewrite decide_False by done. by rewrite IH.
Qed.


Lemma build_ctc_topo2_rows_exact (phones ps : list Z) :
  0 ∈ phones → list_remove 0 phones = Ok ps →
  build_ctc_topo2_rows phones = Ok (topo2_sorted_rows ps).
Proof.
  intros Hzero Hps. unfold build_ctc_topo2_rows.
  rewrite bool_decide_eq_true_2 by done. cbn. rewrite Hps. cbn.
  rewrite (for_append topo2_phone_rows).
  2: { by intros [i p] s' _. }
  rewrite bind_Ok, sorted_by_first_keyed.
  2: { constructor; [done|]. constructor; [done|]. constructor; [done|].
       apply Forall_forall. intros row Hrow.
       apply list_elem_of_bind in Hrow as ([i p] & Hrow & _).
       unfold topo2_phone_rows in Hrow. simpl in Hrow. set_unfold in Hrow.
       by destruct Hrow as [-> | [-> | [-> | [-> | []]]]]. }
  f_equal. csimpl.
  change (stable_sort key_le (?a :: ?b :: ?c :: ?l))
    with (insert_sorted key_le a (insert_sorted key_le b
            (insert_sorted key_le c (stable_sort key_le l)))).
  change (enumerate ps) with (enumerate_from 0 ps).
  rewrite stable_sort_phone_rows.
  set (body := (enumerate_from 0 ps ≫= topo2_start_rows)
               ++ (enumerate_from 0 ps ≫= topo2_state_rows)).
  assert (Forall (λ y : Z * list Z, 0 ≤ y.1 < Z.of_nat (length ps) + 1)
            (keyed <$> body)) as Hbody.
  { apply Forall_fmap, Forall_forall. intros row Hrow.
    unfold body in Hrow. apply elem_of_app in Hrow as [Hrow|Hrow];
      apply list_elem_of_bind in Hrow as ([i q] & Hrow & Hi);
      apply elem_of_enumerate_from in Hi;
      unfold topo2_start_rows, topo2_state_rows in Hrow; simpl in Hrow;
      set_unfold in Hrow;
      destruct Hrow as [-> | [-> | []]]; unfold keyed, first_field; simpl; lia. }
  rewrite <- (app_nil_r (keyed <$> body)).
  rewrite insert_sorted_skip.
  2: { eapply Forall_impl; [exact Hbody|]. intros y Hy.
       solve_key_le. }
  simpl insert_sorted.
  assert (Forall (λ y : Z * list Z, 0 ≤ y.1)
            ((keyed <$> body) ++ [keyed [Z.of_nat (length ps) + 1]])) as Hall.
  { apply Forall_app. split.
    - eapply Forall_impl; [exact Hbody|]. intros y Hy; simpl in *; lia.
    - constructor; [unfold keyed, first_field; simpl; lia|constructor]. }
  rewrite (insert_sorted_front key_le
             (keyed [0; Z.of_nat (length ps) + 1; -1; -1; 0])).
  2: { eapply Forall_impl; [exact Hall|]. intros y Hy. solve_key_le. }
  rewrite (insert_sorted_front key_le (keyed [0; 0; 0; 0; 0])).
  2: { constructor; [solve_key_le|].
       eapply Forall_impl; [exact Hall|]. intros y Hy. solve_key_le. }
  csimpl. do 2 f_equal. rewrite fmap_app, keyed_snd. unfold body.
  by rewrite <- app_assoc.
Qed.

(** X1.  Whatever the position of the first 0 in the list, [build_ctc_topo2]
    writes these lines, in this order: the two lines of the start state, the
    two start lines of each phone in the order of the phones, the two lines of
    each phone's own state in the order of the phones, and the final state.
    Only the first 0 counts as the blank, and its position does not matter. *)
Theorem build_ctc_topo2_lines `{K2} (l1 l2 : list Z) :
  0 ∉ l1 →
  build_ctc_topo2_rows (l1 ++ 0 :: l2) = Ok (topo2_sorted_rows (l1 ++ l2))
  ∧ build_ctc_topo2 (l1 ++ 0 :: l2) = build_ctc_topo2 (0 :: l1 ++ l2).
Proof.
  intros Hl1.
  assert (0 ∈ l1 ++ 0 :: l2) as Hzero by (apply elem_of_app; right; left).
  pose proof (list_remove_first 0 l1 l2 Hl1) as Hps.
  assert (build_ctc_topo2_rows (0 :: l1 ++ l2)
          = Ok (topo2_sorted_rows (l1 ++ l2))) as Hfront.
  { apply build_ctc_topo2_rows_exact; [left|done]. }
  split; [by apply build_ctc_topo2_rows_exact|].
  unfold build_ctc_topo2.
  by rewrite Hfront, (build_ctc_topo2_rows_exact _ _ Hzero Hps).
Qed.

Lemma build_ctc_topo2_lines_witness :
  (0 ∉ [5])
  ∧ build_ctc_topo2_rows [5; 0; 7]
    = Ok [[0; 0; 0; 0; 0]; [0; 3; -1; -1; 0];
          [0; 0; 5; 5; 0]; [0; 1; 5; 5; 0]; [0; 0; 7; 7; 0]; [0; 2; 7; 7; 0];
          [1; 1; 5; 0; 0]; [1; 0; 5; 0; 0]; [2; 2; 7; 0; 0]; [2; 0; 7; 0; 0];
          [3]].
Proof.
  assert (0 ∉ [5]) as Hl1.
  { intros Hin. apply list_elem_of_In in Hin. simpl in Hin.
    destruct Hin as [Hin|[]]; discriminate Hin. }
  split; [exact Hl1|].
  exact (proj1 (@build_ctc_topo2_lines Reference.toolkit [5] [7] Hl1)).
Defined.

(** ** Arcs by source state *)

Lemma filter_all_id {A} (P : A → Prop) `{∀ x, Decision (P x)} (l : list A) :
  Forall P l → filter P l = l.
Proof.
  induction 1 as [|x l Hx _ IH]; [done|].
  by rewrite filter_cons_True, IH.
Qed.

Lemma filter_bind_none {A B} (P : B → Prop) `{∀ y, Decision (P y)}
    (blocks : A → list B) (xs : list A) :
  (∀ x, x ∈ xs → filter P (blocks x) = []) → filter P (xs ≫= blocks) = [].
Proof.
  induction xs as [|x xs IH]; intros Hxs; csimpl; [done|].
  rewrite filter_app, Hxs by left. apply IH. intros; apply Hxs; by right.
Qed.

Lemma filter_bind_one {A B} (P : B → Prop) `{∀ y, Decision (P y)}
    (blocks : A → list B) (xs : list A) (x0 : A) :
  NoDup xs → x0 ∈ xs →
  (∀ x, x ∈ xs → x ≠ x0 → filter P (blocks x) = []) →
  filter P (xs ≫= blocks) = filter P (blocks x0).
Proof.
  induction xs as [|x xs IH]; intros Hnd Hin Hother;
    [by apply elem_of_nil in Hin|].
  apply NoDup_cons in Hnd as [Hx Hnd]. csimpl. rewrite filter_app.
  apply elem_of_cons in Hin as [<-|Hin].
  - rewrite (filter_bind_none P blocks xs), app_nil_r; [done|].
    intros y Hy. apply Hother; [by right|]. by intros ->.
  - rewrite Hother; [|by left|by intros ->]. simpl.
    apply IH; [done|done|]. intros y Hy. apply Hother. by right.
Qed.

Lemma filter_bind_blocks {A B} (P : B → Prop) `{∀ y, Decision (P y)}
    (blocks : A → list B) (xs : list A) :
  filter P (xs ≫= blocks) = xs ≫= (λ x, filter P (blocks x)).
Proof.
  induction xs as [|x xs IH]; csimpl; [done|]. by rewrite filter_app, IH.
Qed.

Lemma length_filter_fmap {A B} (P : B → Prop) `{∀ y, Decision (P y)}
    (g : A → B) (l : list A) :
  length (filter P (g <$> l)) = length (filter (λ x, P (g x)) l).
Proof.
  induction l as [|x l IH]; [done|]. csimpl. rewrite !filter_cons.
  destruct (decide (P (g x))); simpl; by rewrite IH.
Qed.

Lemma fmap_lookup_total_seq (l : list Z) :
  (λ j : nat, l !!! j) <$> seq 0 (length l) = l.
Proof.
  induction l as [|x l IH]; [done|].
  cbn [length seq]. rewrite fmap_cons. f_equal.
  rewrite <- fmap_S_seq, <- list_fmap_compose. exact IH.
Qed.

Lemma NoDup_enumerate {A} (l : list A) : NoDup (enumerate l).
Proof.
  apply (NoDup_fmap_1 fst). unfold enumerate.
  rewrite fst_zip by (rewrite length_seq; lia). apply NoDup_seq.
Qed.

Lemma enumerate_lookup_total (l : list Z) (i : nat) :
  (i < length l)%nat → (i, l !!! i) ∈ enumerate l.
Proof.
  intros Hi. unfold enumerate. apply list_elem_of_lookup. exists i.
  apply lookup_zip_with_Some. exists i, (l !!! i).
  split_and!; [done| |by apply list_lookup_lookup_total_lt].
  by apply lookup_seq.
Qed.

Lemma topo2_arcs_blocks (phones : list Z) :
  topo2_arcs phones
  = [mkArc 0 0 0 0 0; mkArc 0 (Z.of_nat (length phones) + 1) (-1) (-1) 0]
    ++ (enumerate phones ≫= (λ ip, topo2_start_arcs ip ++ topo2_state_arcs ip)).
Proof. done. Qed.

Lemma topo2_arcs_length (phones : list Z) :
  length (topo2_arcs phones) = (4 * length phones + 2)%nat.
Proof.
  unfold topo2_arcs. rewrite length_app, (length_bind_const _ _ 4).
  - unfold enumerate. rewrite length_zip_with, length_seq. simpl. lia.
  - by intros [i p] _.
Qed.

Lemma topo_arcs_length (tokens : list Z) :
  length (topo_self_loops tokens ++ topo_cross_arcs tokens
          ++ topo_final_arcs tokens)
  = (length tokens * length tokens + length tokens)%nat.
Proof.
  rewrite !length_app, topo_cross_arcs_length.
  unfold topo_self_loops, topo_final_arcs.
  rewrite !length_fmap, !length_seq. destruct (length tokens); lia.
Qed.

(** X2.  In the quadratic topology, the arcs that leave token state [i] and
    read [t] are as many as [t] occurs in the token list, plus one when [t]
    is -1 (the arc to the final state).  So every state reads every token,
    and the topology is deterministic on its input labels exactly when no
    token is repeated and -1 is not a token. *)
Theorem build_ctc_topo_arcs_reading `{K2Laws} (tokens : list Z) (i : nat) (t : Z) :
  0 ∈ tokens →
  (i < length tokens)%nat →
  ∃ f,
    build_ctc_topo tokens = Ok f
    ∧ length (arcs_reading f (Z.of_nat i) t)
      = (occurrences t tokens + if decide (t = (-1)%Z) then 1 else 0)%nat
    ∧ length (arcs_from f (Z.of_nat i)) = S (length tokens)
    ∧ (NoDup tokens → (-1) ∉ tokens → t ∈ tokens ∨ t = -1 →
       length (arcs_reading f (Z.of_nat i) t) = 1%nat).
Proof.
  intros Hzero Hi. eexists. split; [by apply build_ctc_topo_ok|].
  assert (∀ (P : Arc → Prop) `{∀ a, Decision (P a)},
            (∀ a, P a → src_state a = Z.of_nat i) →
            length (filter P (arcs (arc_sort
              (mkFsa (Z.of_nat (length tokens) + 1)
                 (row_arc <$> (seq 0 (length tokens)
                               ≫= topo_state_rows tokens))))))
            = length (filter P (row_arc <$> topo_state_rows tokens i)))
    as Hblock.
  { intros P HP Hsrc. rewrite arc_sort_perm. simpl.
    rewrite fmap_bind_list.
    rewrite (filter_bind_one P _ _ i); [done|apply NoDup_seq| |].
    - apply elem_of_seq. lia.
    - intros i' _ Hne. apply filter_none. intros a Ha HPa.
      pose proof (topo_state_rows_src tokens i') as Hsrc'.
      rewrite Forall_forall in Hsrc'. specialize (Hsrc' a Ha).
      apply Hsrc in HPa. lia. }
  assert (length (arcs_reading
            (arc_sort (mkFsa (Z.of_nat (length tokens) + 1)
               (row_arc <$> (seq 0 (length tokens)
                             ≫= topo_state_rows tokens)))) (Z.of_nat i) t)
          = (occurrences t tokens + if decide (t = (-1)%Z) then 1 else 0)%nat)
    as Hreading.
  { unfold arcs_reading. rewrite Hblock by (by intros a [? _]).
    unfold topo_state_rows. rewrite fmap_app, filter_app, length_app.
    rewrite <- list_fmap_compose, length_filter_fmap.
    f_equal.
    - unfold occurrences.
      rewrite <- (fmap_lookup_total_seq tokens) at 2.
      rewrite length_filter_fmap. f_equal. apply list_filter_iff.
      intros j. unfold compose, topo_cell.
      simpl. destruct (decide (i = j)) as [Heq|Hne]; [subst j|]; simpl; tauto.
    - cbn [fmap list_fmap]. rewrite filter_cons, filter_nil. simpl.
      destruct (decide (t = -1)) as [->|Hne].
      + by rewrite decide_True.
      + rewrite decide_False; [done|]. intros [_ Hl]. congruence. }
  split_and!.
  - exact Hreading.
  - unfold arcs_from. rewrite Hblock by done.
    rewrite (filter_all_id _ (row_arc <$> topo_state_rows tokens i)).
    + unfold topo_state_rows.
      rewrite length_fmap, length_app, length_fmap, length_seq. simpl. lia.
    + apply topo_state_rows_src.
  - intros Hnd Hm1 Ht. rewrite Hreading. unfold occurrences.
    destruct Ht as [Ht| ->].
    + rewrite decide_False by (by intros ->).
      enough (length (filter (λ x, x = t) tokens) = 1%nat) by lia.
      clear -Hnd Ht. induction Hnd as [|x l Hx Hnd IH];
        [by apply elem_of_nil in Ht|].
      rewrite filter_cons. destruct (decide (x = t)) as [->|Hne].
      * simpl. f_equal. apply length_zero_iff_nil, filter_none.
        intros y Hy ->. done.
      * apply elem_of_cons in Ht as [?|Ht]; [congruence|]. by apply IH.
    + rewrite decide_True by done.
      rewrite (filter_none _ tokens); [done|]. by intros y Hy ->.
Qed.

Lemma build_ctc_topo_arcs_reading_witness :
  0 ∈ [0; 5; 7]
  ∧ (1 < length [0; 5; 7])%nat
  ∧ ∃ f, @build_ctc_topo Reference.toolkit [0; 5; 7] = Ok f
         ∧ length (arcs_reading f 1 5) = 1%nat
         ∧ length (arcs_from f 1) = 4%nat.
Proof.
  assert (0 ∈ [0; 5; 7]) as Hzero by left.
  assert (1 < length [0; 5; 7])%nat as Hi by (simpl; lia).
  split; [exact Hzero|]. split; [exact Hi|].
  destruct (@build_ctc_topo_arcs_reading Reference.toolkit reference_laws
              [0; 5; 7] 1 5 Hzero Hi) as (f & Hf & Hreading & Hfrom & _).
  exists f. split; [exact Hf|]. split; [exact Hreading | exact Hfrom].
Defined.

(** X3.  In the linear topology, the state of a phone has exactly two arcs:
    both read the phone and write nothing, one stays and one goes back to the
    start state.  The start state has the blank loop, the arc to the final
    state and two arcs per phone.  So only arcs that leave the start state
    write a label, and no arc joins the states of two phones. *)
Theorem build_ctc_topo2_states `{K2Laws} (l1 l2 : list Z) :
  0 ∉ l1 →
  ∃ f,
    build_ctc_topo2 (l1 ++ 0 :: l2) = Ok f
    ∧ arcs_from f 0
      ≡ₚ [mkArc 0 0 0 0 0;
           mkArc 0 (Z.of_nat (length (l1 ++ l2)) + 1) (-1) (-1) 0]
          ++ (enumerate (l1 ++ l2) ≫= topo2_start_arcs)
    ∧ (∀ i : nat, (i < length (l1 ++ l2))%nat →
         arcs_from f (Z.of_nat i + 1)
         ≡ₚ topo2_state_arcs (i, (l1 ++ l2) !!! i))
    ∧ (∀ a, a ∈ arcs f → aux_label a ≠ 0 → src_state a = 0)
    ∧ (∀ a, a ∈ arcs f → src_state a ≠ 0 → dest_state a ≠ 0 →
         dest_state a = src_state a).
Proof.
  intros Hl1.
  assert (0 ∈ l1 ++ 0 :: l2) as Hzero by (apply elem_of_app; right; left).
  pose proof (list_remove_first 0 l1 l2 Hl1) as Hps.
  destruct (build_ctc_topo2_ok _ _ Hzero Hps)
    as (rows & arcs' & _ & _ & _ & Hf & Hperm).
  set (ps := l1 ++ l2) in *.
  eexists. split; [exact Hf|].
  assert (arcs (arc_sort (mkFsa (Z.of_nat (length ps) + 2) arcs'))
          ≡ₚ topo2_arcs ps) as Harcs by (by rewrite arc_sort_perm).
  assert (∀ a, a ∈ topo2_arcs ps →
            (aux_label a ≠ 0 → src_state a = 0)
            ∧ (src_state a ≠ 0 → dest_state a ≠ 0 →
               dest_state a = src_state a)) as Hforms.
  { intros a Ha. unfold topo2_arcs in Ha. apply elem_of_app in Ha as [Ha|Ha].
    - set_unfold in Ha. by destruct Ha as [-> | [-> | []]].
    - apply elem_of_topo2_phone_arcs in Ha as (i & p & _ & _ & Ha).
      by destruct Ha as [-> | [-> | [-> | ->]]]. }
  split_and!.
  - unfold arcs_from. rewrite Harcs, topo2_arcs_blocks, filter_app.
    rewrite filter_bind_blocks.
    rewrite (bind_ext_in _ topo2_start_arcs); [done|].
    intros [i p] _. unfold topo2_start_arcs, topo2_state_arcs. simpl.
    rewrite !filter_cons, filter_nil. simpl.
    repeat case_decide; try lia; done.
  - intros i Hi. unfold arcs_from.
    rewrite Harcs, topo2_arcs_blocks, filter_app.
    rewrite (filter_bind_one _ _ _ (i, ps !!! i));
      [|apply NoDup_enumerate|by apply enumerate_lookup_total|].
    + unfold topo2_start_arcs, topo2_state_arcs. simpl.
      rewrite !filter_cons, filter_nil. simpl.
      repeat case_decide; try lia; done.
    + intros [i' p'] Hin Hne. apply elem_of_enumerate in Hin as [_ Hp'].
      assert (i' ≠ i) as Hi'.
      { intros ->. apply Hne. f_equal.
        by rewrite (list_lookup_total_correct _ _ _ Hp'). }
      unfold topo2_start_arcs, topo2_state_arcs. simpl.
      rewrite !filter_cons, filter_nil. simpl.
      repeat case_decide; try lia; done.
  - intros a Ha. rewrite Harcs in Ha. by apply Hforms.
  - intros a Ha. rewrite Harcs in Ha. by apply Hforms.
Qed.

Lemma build_ctc_topo2_states_witness :
  (0 ∉ [5])
  ∧ ∃ f, @build_ctc_topo2 Reference.toolkit [5; 0; 7] = Ok f
         ∧ arcs_from f 2 ≡ₚ [mkArc 2 2 7 0 0; mkArc 2 0 7 0 0].
Proof.
  assert (0 ∉ [5]) as Hl1.
  { intros Hin. apply list_elem_of_In in Hin. simpl in Hin.
    destruct Hin as [Hin|[]]; discriminate Hin. }
  split; [exact Hl1|].
  destruct (@build_ctc_topo2_states Reference.toolkit reference_laws
              [5] [7] Hl1) as (f & Hf & _ & Hstate & _).
  exists f. split; [exact Hf|].
  exact (Hstate 1%nat (le_n 2)).
Defined.


(** X5.  For the list that the constructor passes, 0 followed by m phone
    ids, the two topologies have the same number of states, and the
    quadratic one has m·(m−1) more arcs than the linear one: the linear
    topology is never larger, and smaller from two phones on. *)
Theorem topologies_compared `{K2Laws} (phone_ids : list Z) :
  ∃ T1 T2,
    build_ctc_topo (0 :: phone_ids) = Ok T1
    ∧ build_ctc_topo2 (0 :: phone_ids) = Ok T2
    ∧ num_states T1 = num_states T2
    ∧ num_states T2 = Z.of_nat (length phone_ids) + 2
    ∧ length (arcs T2) = (4 * length phone_ids + 2)%nat
    ∧ length (arcs T1)
      = (length (arcs T2) + length phone_ids * (length phone_ids - 1))%nat.
Proof.
  assert (0 ∈ 0 :: phone_ids) as Hzero by left.
  destruct (build_ctc_topo2_ok (0 :: phone_ids) phone_ids Hzero eq_refl)
    as (rows & arcs' & _ & _ & _ & Hf2 & Hperm2).
  pose proof (build_ctc_topo_ok (0 :: phone_ids) Hzero) as Hf1.
  eexists _, _. split; [exact Hf1|]. split; [exact Hf2|].
  assert (length (arcs (arc_sort
            (mkFsa (Z.of_nat (length phone_ids) + 2) arcs')))
          = (4 * length phone_ids + 2)%nat) as Hlen2.
  { rewrite arc_sort_perm, <- topo2_arcs_length. cbn [arcs].
    by rewrite Hperm2. }
  split_and!.
  - rewrite !arc_sort_num_states. cbn [num_states length]. lia.
  - by rewrite arc_sort_num_states.
  - exact Hlen2.
  - rewrite Hlen2, arc_sort_perm. cbn [arcs].
    rewrite (topo_arcs_perm (0 :: phone_ids)), topo_arcs_length.
    cbn [length]. destruct (length phone_ids); lia.
Qed.

Lemma topologies_compared_witness :
  ∃ T1 T2,
    @build_ctc_topo Reference.toolkit [0; 1; 2; 3] = Ok T1
    ∧ @build_ctc_topo2 Reference.toolkit [0; 1; 2; 3] = Ok T2
    ∧ length (arcs T2) = 14%nat
    ∧ length (arcs T1) = 20%nat.
Proof.
  destruct (@topologies_compared Reference.toolkit reference_laws [1; 2; 3])
    as (T1 & T2 & H1 & H2 & _ & _ & Hl2 & Hl1).
  exists T1, T2. split; [exact H1|]. split; [exact H2|].
  split; [exact Hl2|]. rewrite Hl2 in Hl1. exact Hl1.
Defined.

(** ** More on [compile] *)

Lemma split_length (text : string) :
  length (split text) = S (count_spaces text).
Proof.
  induction text as [|c rest IH]; [done|]. simpl.
  destruct (Ascii.eqb c " "); simpl; [by rewrite IH|].
  destruct (split rest) as [|w ws]; [done|]. by simpl in *.
Qed.

(** The loop of [compile] that appends one list per transcript is a
    comprehension over the transcripts. *)
Lemma for_comprehension {A B} (F : A → result B) (xs : list A) (s : list B) :
  for_ xs (λ x acc, r ← F x; Ok (acc ++ [r])) s
  = rs ← comprehension F xs; Ok (s ++ rs).
Proof.
  revert s. induction xs as [|x xs IH]; intros s; simpl.
  - by rewrite app_nil_r.
  - destruct (F x) as [r|e]; simpl; [|done]. rewrite IH.
    destruct (comprehension F xs) as [rs|e]; simpl; [|done].
    by rewrite <- app_assoc.
Qed.

Lemma comprehension_app {A B} (F : A → result B) (xs ys : list A) :
  comprehension F (xs ++ ys)
  = a ← comprehension F xs; b ← comprehension F ys; Ok (a ++ b).
Proof.
  induction xs as [|x xs IH]; simpl.
  - by destruct (comprehension F ys).
  - destruct (F x) as [r|e]; simpl; [|done]. rewrite IH.
    destruct (comprehension F xs) as [rs|e]; simpl; [|done].
    by destruct (comprehension F ys).
Qed.

(** A comprehension raises the exception of the first element on which its
    function raises. *)
Lemma comprehension_raise {A B} (F : A → result B) (xs : list A) (e : exn) :
  comprehension F xs = Raise e ↔
  ∃ l1 x l2, xs = l1 ++ x :: l2 ∧ F x = Raise e
             ∧ ∀ y, y ∈ l1 → ∃ r, F y = Ok r.
Proof.
  induction xs as [|x xs IH]; simpl.
  - split; [done|]. intros (l1 & y & l2 & Heq & _). by destruct l1.
  - destruct (F x) as [r|e'] eqn:HFx; simpl.
    + destruct (comprehension F xs) as [rs|e'] eqn:Hrest; simpl.
      * split; [done|]. intros (l1 & y & l2 & Heq & Hy & Hl1).
        destruct l1 as [|z l1]; simpl in Heq; injection Heq as -> ->;
          [congruence|].
        assert (@Ok (list B) rs = Raise e) as Habs; [|done].
        apply IH. exists l1, y, l2. split_and!; [done..|].
        intros y' Hy'. apply Hl1. by right.
      * split.
        -- intros [= ->]. destruct (proj1 IH eq_refl)
             as (l1 & y & l2 & -> & Hy & Hl1).
           exists (x :: l1), y, l2. split_and!; [done..|].
           intros y' [->|Hy']%elem_of_cons; eauto.
        -- intros (l1 & y & l2 & Heq & Hy & Hl1).
           destruct l1 as [|z l1]; simpl in Heq; injection Heq as -> ->;
             [congruence|].
           apply IH. exists l1, y, l2. split_and!; [done..|].
           intros y' Hy'. apply Hl1. by right.
    + split.
      * intros [= ->]. exists [], x, xs. split_and!; [done..|].
        intros y Hy. by apply elem_of_nil in Hy.
      * intros (l1 & y & l2 & Heq & Hy & Hl1).
        destruct l1 as [|z l1]; simpl in Heq; injection Heq as -> ->;
          [congruence|].
        destruct (Hl1 z) as [r Hr]; [left|]. congruence.
Qed.

(** The word ids of a transcript, as the body of the loop computes them. *)
Lemma compile_word_ids_comprehension (self : Compiler) (texts : list string) :
  compile_word_ids self texts
  = comprehension (λ text,
      comprehension (getitem (words self))
        ((λ token, if contains (words self) token then token else oov self)
           <$> split text)) texts.
Proof.
  unfold compile_word_ids.
  rewrite (for_comprehension (λ text,
      comprehension (getitem (words self))
        ((λ token, if contains (words self) token then token else oov self)
           <$> split text)) texts []).
  by destruct (comprehension _ texts).
Qed.

Lemma contains_lookup (table : SymbolTable) (sym : string) :
  contains table sym = true ↔ is_Some (sym2id table !! sym).
Proof. unfold contains. by rewrite bool_decide_eq_true. Qed.

Lemma getitem_raise (table : SymbolTable) (sym : string) (e : exn) :
  getitem table sym = Raise e ↔ e = KeyError ∧ sym2id table !! sym = None.
Proof.
  unfold getitem. destruct (sym2id table !! sym); split; try done.
  - by intros [_ ?].
  - by intros [= <-].
  - by intros [-> _].
Qed.

(** X6.  The first loop of [compile] gives one list of ids per transcript,
    in order; the list of a transcript has one id more than the transcript
    has spaces, and every id in it is the id that the word table gives to
    some symbol: no id is made up. *)
Theorem compile_word_ids_shape (self : Compiler) (u : Z)
    (texts : list string) :
  sym2id (words self) !! oov self = Some u →
  ∃ word_ids,
    compile_word_ids self texts = Ok word_ids
    ∧ Forall2 (λ text ids,
        length ids = S (count_spaces text)
        ∧ Forall (λ i, ∃ sym, sym2id (words self) !! sym = Some i) ids)
        texts word_ids.
Proof.
  intros Hoov. eexists. split; [by apply compile_word_ids_ok|].
  apply Forall2_fmap_r, Forall_Forall2_diag, Forall_forall.
  intros text _. unfold transcript_ids. split.
  - by rewrite length_fmap, split_length.
  - apply Forall_fmap, Forall_forall. intros word _. simpl.
    destruct (sym2id (words self) !! word) as [i|] eqn:Hword; simpl; eauto.
Qed.

Lemma compile_word_ids_shape_witness :
  ∃ word_ids,
    compile_word_ids Sample.compiler ["a  c"%string; EmptyString]
    = Ok word_ids
    ∧ Forall2 (λ text ids,
        length ids = S (count_spaces text)
        ∧ Forall (λ i, ∃ sym,
            sym2id (words Sample.compiler) !! sym = Some i) ids)
        ["a  c"%string; EmptyString] word_ids.
Proof.
  exact (compile_word_ids_shape Sample.compiler 1
           ["a  c"%string; EmptyString] eq_refl).
Defined.

(** With the OOV symbol missing from the word table, one missing word is
    enough for the first loop of [compile] to raise [KeyError]. *)
Lemma compile_word_ids_absent (self : Compiler) (texts : list string)
    (text token : string) :
  sym2id (words self) !! oov self = None →
  text ∈ texts →
  token ∈ split text →
  sym2id (words self) !! token = None →
  compile_word_ids self texts = Raise KeyError.
Proof.
  intros Hoov Htext Htoken Hnone. rewrite compile_word_ids_comprehension.
  destruct (comprehension _ texts) as [word_ids|e] eqn:Hcomp.
  - exfalso. apply comprehension_Forall2 in Hcomp.
    apply list_elem_of_lookup in Htext as [k Hk].
    destruct (Forall2_lookup_l _ _ _ _ _ Hcomp Hk) as (ids & _ & Hids).
    apply comprehension_Forall2 in Hids.
    apply Forall2_fmap_l in Hids.
    apply list_elem_of_lookup in Htoken as [j Hj].
    destruct (Forall2_lookup_l _ _ _ _ _ Hids Hj) as (i & _ & Hi).
    simpl in Hi.
    assert (contains (words self) token = false) as Hc.
    { destruct (contains (words self) token) eqn:Hc; [|done].
      apply contains_lookup in Hc as [? ?]. congruence. }
    rewrite Hc in Hi. unfold getitem in Hi. by rewrite Hoov in Hi.
  - f_equal.
    apply comprehension_raise in Hcomp as (l1 & text' & l2 & _ & Ht & _).
    apply comprehension_raise in Ht as (_ & tok & _ & _ & Hget & _).
    by apply getitem_raise in Hget as [-> _].
Qed.

(** X7.  The first loop of [compile] can raise nothing but [KeyError], and
    raises it exactly when the OOV symbol is not in the word table and some
    word of some transcript is not in it either: this is what the assertion
    in [__init__] rules out. *)
Theorem compile_word_ids_raises (self : Compiler) (texts : list string)
    (e : exn) :
  compile_word_ids self texts = Raise e ↔
  e = KeyError
  ∧ sym2id (words self) !! oov self = None
  ∧ ∃ text token,
      text ∈ texts ∧ token ∈ split text
      ∧ sym2id (words self) !! token = None.
Proof.
  rewrite compile_word_ids_comprehension. split.
  - intros (l1 & text & l2 & -> & Htext & _)%comprehension_raise.
    apply comprehension_raise in Htext as (t1 & token' & t2 & Hsplit & Hget & _).
    apply getitem_raise in Hget as [-> Hnone].
    assert (token' ∈ (λ token,
              if contains (words self) token then token else oov self)
              <$> split text) as Hin.
    { rewrite Hsplit. apply elem_of_app. right. left. }
    apply list_elem_of_fmap in Hin as (token & -> & Hin).
    destruct (contains (words self) token) eqn:Hc.
    + apply contains_lookup in Hc as [i Hi]. congruence.
    + split_and!; [done..|]. exists text, token. split_and!; [|done|].
      * apply elem_of_app. right. left.
      * destruct (sym2id (words self) !! token) eqn:Hl; [|done].
        assert (contains (words self) token = true) as Hc'
          by (apply contains_lookup; eauto). congruence.
  - intros (-> & Hoov & text & token & Htext & Htoken & Hnone).
    rewrite <- compile_word_ids_comprehension.
    by eapply compile_word_ids_absent.
Qed.

(** X8.  When [compile] meets a word that is not in the word table while the
    OOV symbol is not in it either, it raises [KeyError] before it has made
    any object: the store is left exactly as it was. *)
Theorem compile_raises_key_error `{K2} (h : store) (self : loc)
    (c : Compiler) (texts : list string) (text token : string) :
  h !! self = Some (CompilerObj c) →
  sym2id (words c) !! oov c = None →
  text ∈ texts →
  token ∈ split text →
  sym2id (words c) !! token = None →
  compile self texts h = (Raise KeyError, h).
Proof.
  intros Hself Hoov Htext Htoken Hnone.
  assert (compile_word_ids c texts = Raise KeyError) as Hids
    by (by eapply compile_word_ids_absent).
  unfold compile.
  unfold mbind at 1, M_bind at 1, deref_compiler at 1.
  rewrite Hself.
  unfold mbind at 1, M_bind at 1, lift.
  by rewrite Hids.
Qed.

Lemma compile_raises_key_error_witness :
  let c := mkCompiler 2%positive Sample.phones Sample.words "<unk>" 3%positive in
  let h : store := <[1%positive := CompilerObj c]> ∅ in
  @compile Reference.toolkit 1%positive ["a xyz"%string] h
  = (Raise KeyError, h).
Proof.
  intros c h.
  apply (@compile_raises_key_error Reference.toolkit h 1%positive c
           ["a xyz"%string] "a xyz"%string "xyz"%string).
  - reflexivity.
  - reflexivity.
  - left.
  - right. left.
  - reflexivity.
Defined.

(** X9.  The word ids of a batch are those of its transcripts, one after the
    other: a transcript is mapped to the same ids whatever stands before or
    after it in the batch, and a batch raises when one of its parts
    does. *)
Theorem compile_word_ids_app (self : Compiler) (texts1 texts2 : list string) :
  compile_word_ids self (texts1 ++ texts2)
  = ids1 ← compile_word_ids self texts1;
    ids2 ← compile_word_ids self texts2;
    Ok (ids1 ++ ids2).
Proof.
  rewrite !compile_word_ids_comprehension. apply comprehension_app.
Qed.

(** X10.  [compile] keeps nothing from one call to the next.  A second call
    returns an object other than the one the first call returned, leaves
    the first result as it was, and gives the graphs that it would have
    given had it been the first call. *)
Theorem compile_twice `{K2Laws} (h : store) (self : loc) (c : Compiler)
    (L T : Fsa) (gL gT : bool) (u : Z) (texts1 texts2 : list string) :
  h !! self = Some (CompilerObj c) →
  h !! L_inv c = Some (FsaObj (One L) gL) →
  h !! ctc_topo c = Some (FsaObj (One T) gT) →
  sym2id (words c) !! oov c = Some u →
  ∃ g1 h1 g2 h2 g2' h2' v1 v2,
    compile self texts1 h = (Ok g1, h1)
    ∧ compile self texts2 h1 = (Ok g2, h2)
    ∧ compile self texts2 h = (Ok g2', h2')
    ∧ g1 ≠ g2
    ∧ h1 !! g1 = Some (FsaObj v1 false)
    ∧ h2 !! g1 = Some (FsaObj v1 false)
    ∧ h2 !! g2 = Some (FsaObj v2 false)
    ∧ h2' !! g2' = Some (FsaObj v2 false)
    ∧ h ⊆ h2.
Proof.
  intros Hself HL HT Hoov.
  destruct (wp_run _ _ _
              (compile_returns h self c L T gL gT u texts1 Hself HL HT Hoov))
    as (g1 & h1 & Hrun1 & Hh1 & Hown1 & Hg1).
  assert (h1 !! self = Some (CompilerObj c)) as Hself1
    by (by eapply lookup_weaken).
  assert (h1 !! L_inv c = Some (FsaObj (One L) gL)) as HL1
    by (by eapply lookup_weaken).
  assert (h1 !! ctc_topo c = Some (FsaObj (One T) gT)) as HT1
    by (by eapply lookup_weaken).
  destruct (wp_run _ _ _
              (compile_returns h1 self c L T gL gT u texts2
                 Hself1 HL1 HT1 Hoov))
    as (g2 & h2 & Hrun2 & Hh2 & Hown2 & Hg2).
  destruct (wp_run _ _ _
              (compile_returns h self c L T gL gT u texts2 Hself HL HT Hoov))
    as (g2' & h2' & Hrun2' & _ & _ & Hg2').
  exists g1, h1, g2, h2, g2', h2'. eexists _, _.
  split_and!; try done.
  - intros ->. unfold owned in Hown2. congruence.
  - by eapply lookup_weaken.
  - by etrans.
Qed.

Lemma compile_twice_witness :
  ∃ g1 h1 g2 h2 g2' h2' v1 v2,
    @compile Reference.toolkit 3%positive ["a c"%string] Sample.h
    = (Ok g1, h1)
    ∧ @compile Reference.toolkit 3%positive ["c"%string] h1 = (Ok g2, h2)
    ∧ @compile Reference.toolkit 3%positive ["c"%string] Sample.h
      = (Ok g2', h2')
    ∧ g1 ≠ g2
    ∧ h1 !! g1 = Some (FsaObj v1 false)
    ∧ h2 !! g1 = Some (FsaObj v1 false)
    ∧ h2 !! g2 = Some (FsaObj v2 false)
    ∧ h2' !! g2' = Some (FsaObj v2 false)
    ∧ Sample.h ⊆ h2.
Proof.
  exact (@compile_twice Reference.toolkit reference_laws Sample.h 3%positive
           Sample.compiler Sample.sorted_lexicon Sample.topology false false 1
           ["a c"%string] ["c"%string] eq_refl eq_refl eq_refl eq_refl).
Defined.

(** ** More on [__init__] *)

(** X11.  The constructor does not check [topo]: every string other than
    [normal] selects the linear topology.  Whatever ids the phone table
    gives, building the topology cannot fail, because 0 is put in front of
    them; the topology is a new object with two states more than there are
    phone ids, and gradients are off for it. *)
Theorem init_topology `{K2Laws} (get_phone_symbols : SymbolTable → list Z)
    (h : store) (L : loc) (v : FsaVal) (g : bool)
    (phone_table word_table : SymbolTable) (topo oov_symbol : string) :
  h !! L = Some (FsaObj v g) →
  contains word_table oov_symbol = true →
  ∃ self h' c T,
    __init__ get_phone_symbols L phone_table word_table topo oov_symbol h
    = (Ok self, h')
    ∧ h' !! self = Some (CompilerObj c)
    ∧ h !! ctc_topo c = None
    ∧ h' !! ctc_topo c = Some (FsaObj (One T) false)
    ∧ num_states T = Z.of_nat (length (get_phone_symbols phone_table)) + 2
    ∧ (topo = "normal"%string →
       arcs T ≡ₚ topo_self_loops (0 :: get_phone_symbols phone_table)
                 ++ topo_cross_arcs (0 :: get_phone_symbols phone_table)
                 ++ topo_final_arcs (0 :: get_phone_symbols phone_table))
    ∧ (topo ≠ "normal"%string →
       arcs T ≡ₚ topo2_arcs (get_phone_symbols phone_table)).
Proof.
  intros HL Hoov.
  destruct (wp_run _ _ _
              (init_returns get_phone_symbols L v g phone_table word_table
                 topo oov_symbol h HL Hoov))
    as (self & h' & Hrun & _ & _ & t & T & Hself & (_ & Hownt & Ht) & Hbuild).
  set (ids := get_phone_symbols phone_table) in *.
  assert (0 ∈ 0 :: ids) as Hblank by left.
  pose proof (build_ctc_topo_ok (0 :: ids) Hblank) as Hf1.
  destruct (build_ctc_topo2_ok (0 :: ids) ids Hblank eq_refl)
    as (rows & arcs' & _ & _ & _ & Hf2 & Hperm2).
  exists self, h', (mkCompiler L phone_table word_table oov_symbol t), T.
  split_and!; [done..| | |].
  - destruct (decide (topo = "normal"%string)).
    + rewrite Hf1 in Hbuild. injection Hbuild as <-.
      rewrite arc_sort_num_states. cbn [num_states length]. lia.
    + rewrite Hf2 in Hbuild. injection Hbuild as <-.
      by rewrite arc_sort_num_states.
  - intros Hnormal. rewrite decide_True in Hbuild by done.
    rewrite Hf1 in Hbuild. injection Hbuild as <-.
    rewrite arc_sort_perm. exact (topo_arcs_perm (0 :: ids)).
  - intros Hother. rewrite decide_False in Hbuild by done.
    rewrite Hf2 in Hbuild. injection Hbuild as <-.
    by rewrite arc_sort_perm.
Qed.

Lemma init_topology_witness :
  ∃ self h' c T,
    @__init__ Reference.toolkit Sample.get_phone_symbols 1%positive
      Sample.phones Sample.words "Normal" "<UNK>" Sample.h_unsorted
    = (Ok self, h')
    ∧ h' !! self = Some (CompilerObj c)
    ∧ h' !! ctc_topo c = Some (FsaObj (One T) false)
    ∧ arcs T ≡ₚ topo2_arcs (Sample.get_phone_symbols Sample.phones).
Proof.
  destruct (@init_topology Reference.toolkit reference_laws
              Sample.get_phone_symbols Sample.h_unsorted 1%positive
              (One Sample.lexicon) false Sample.phones Sample.words
              "Normal"%string "<UNK>"%string eq_refl eq_refl)
    as (self & h' & c & T & Hinit & Hself & _ & Ht & _ & _ & Hlinear).
  exists self, h', c, T.
  split; [exact Hinit|]. split; [exact Hself|]. split; [exact Ht|].
  apply Hlinear. discriminate.
Defined.
